(** * NVPTXCtorDtorLowering: a shallow embedding of the NVPTX pass that
    lowers [llvm.global_ctors] / [llvm.global_dtors] into entry globals and
    the [nvptx$device$init] / [nvptx$device$fini] kernels
    (llvm/lib/Target/NVPTX/NVPTXCtorDtorLowering.cpp). *)

From Stdlib Require Import String Ascii List ZArith Lia Bool.
From Stdlib Require Import DecimalN.
Import ListNotations.
Open Scope Z_scope.

(** ** IR data model *)

(** A [ConstantInt] of bit width [ci_width] holding the bit pattern
    [ci_bits] (0 <= ci_bits < 2^ci_width). *)
Record ConstantInt := { ci_width : Z; ci_bits : Z }.

(** [APInt::getSExtValue]: the bit pattern read as a signed number. *)
Definition getSExtValue (c : ConstantInt) : Z :=
  if Z.testbit (ci_bits c) (ci_width c - 1)
  then ci_bits c - 2 ^ ci_width c else ci_bits c.

(** One [{ i32/i64 priority, ptr fn, ptr data }] record of the metadata
    array; the function is referred to by its name ([F->getName()]), the
    data operand is never read by the pass. *)
Record CtorStruct := { cs_priority : ConstantInt; cs_function : string }.

(** The initializers the pass can meet. *)
Inductive Constant :=
| ConstantArray (ops : list CtorStruct)  (* a [ConstantArray] of records *)
| FunctionRef (name : string)           (* the address of a function *)
| NullPtr                               (* [Constant::getNullValue(ptr)] *)
| OtherConstant.                        (* any other constant, e.g. [zeroinitializer] *)

Inductive Linkage :=
| ExternalLinkage | AppendingLinkage | WeakAnyLinkage | WeakODRLinkage
| InternalLinkage | PrivateLinkage.

Definition hasLocalLinkage (l : Linkage) : bool :=
  match l with InternalLinkage | PrivateLinkage => true | _ => false end.

Inductive Visibility := DefaultVisibility | ProtectedVisibility.

Record GlobalVariable := {
  gv_name : string;
  gv_isConstant : bool;
  gv_linkage : Linkage;
  gv_initializer : option Constant;   (* [None]: a declaration *)
  gv_section : string;
  gv_visibility : Visibility;
  gv_addrspace : Z }.

Inductive CallingConv := C_CC | PTX_Kernel.

(** The body synthesised by [createInitOrFiniCalls]; its run-time behaviour
    is [init_or_fini_calls] below. *)
Inductive Body := InitOrFiniCalls (IsCtor : bool).

Record Function := {
  fn_name : string;
  fn_linkage : Linkage;
  fn_callconv : CallingConv;
  fn_attrs : list (string * string);
  fn_body : option Body }.

(** A module. Globals and functions share the module's symbol table
    ([ValueSymbolTable]); [m_last_unique] is its [LastUnique] counter.
    [m_used] is the list held by [llvm.used] ([appendToUsed]).
    [m_default_fn_attrs] are the function attributes
    [Function::createWithDefaultAttr] derives from the module flags and the
    context (uwtable, frame-pointer, target-cpu, ...). *)
Record Module := {
  m_source_file : string;
  m_globals : list GlobalVariable;
  m_functions : list Function;
  m_used : list string;
  m_last_unique : nat;
  m_default_fn_attrs : list (string * string) }.

(** The two [cl::opt]s of the file, and [getHash] (MD5 of the string, low
    64 bits rendered by [utohexstr]), which is LLVM Support code kept
    abstract here. *)
Record Options := {
  GlobalStr : string;       (* nvptx-lower-global-ctor-dtor-id, default "" *)
  CreateKernels : bool;     (* nvptx-emit-init-fini-kernel, default true *)
  getHash : string -> string }.

Definition ADDRESS_SPACE_GLOBAL : Z := 1.

(** ** Strings *)

Local Open Scope string_scope.

(** [std::to_string(uint64_t)]: the decimal digits of [N.to_uint], which
    has no leading zero. *)
Fixpoint uint_to_string (d : Decimal.uint) : string :=
  match d with
  | Decimal.Nil => ""
  | Decimal.D0 d => String "0" (uint_to_string d)
  | Decimal.D1 d => String "1" (uint_to_string d)
  | Decimal.D2 d => String "2" (uint_to_string d)
  | Decimal.D3 d => String "3" (uint_to_string d)
  | Decimal.D4 d => String "4" (uint_to_string d)
  | Decimal.D5 d => String "5" (uint_to_string d)
  | Decimal.D6 d => String "6" (uint_to_string d)
  | Decimal.D7 d => String "7" (uint_to_string d)
  | Decimal.D8 d => String "8" (uint_to_string d)
  | Decimal.D9 d => String "9" (uint_to_string d)
  end.

Definition to_string (n : Z) : string := uint_to_string (N.to_uint (Z.to_N n)).

(** [uint64_t Priority = ...getSExtValue()]: the int64 taken modulo 2^64. *)
Definition to_uint64 (x : Z) : Z := x mod 2 ^ 64.

(** [llvm::transform(NameStr, ..., c == '.' ? '_' : c)]. *)
Fixpoint replace_dots (s : string) : string :=
  match s with
  | EmptyString => EmptyString
  | String c s' =>
      String (if Ascii.eqb c "."%char then "_"%char else c) (replace_dots s')
  end.

Definition kernel_name (IsCtor : bool) : string :=
  if IsCtor then "nvptx$device$init" else "nvptx$device$fini".

(** ** Module operations used by the pass *)

(** Whether a global or a function of the module is called [Name]. *)
Definition name_in_use (M : Module) (Name : string) : bool :=
  existsb (fun g => String.eqb (gv_name g) Name) (m_globals M)
  || existsb (fun f => String.eqb (fn_name f) Name) (m_functions M).

(** [ValueSymbolTable::makeUniqueName] for a global value of an NVPTX
    module (no ['.'] before the number there): [++LastUnique] is appended
    to the base name until the result is free. Every rejected candidate is
    the name of a distinct symbol of the table, so the fuel (one more than
    the number of symbols) is enough. Returns the name and the new
    [LastUnique]. *)
Fixpoint makeUniqueName (fuel : nat) (M : Module) (Base : string) (LastUnique : nat)
  : string * nat :=
  let Candidate := Base ++ to_string (Z.of_nat (S LastUnique)) in
  match fuel with
  | O => (Candidate, S LastUnique)
  | S fuel' =>
      if name_in_use M Candidate then makeUniqueName fuel' M Base (S LastUnique)
      else (Candidate, S LastUnique)
  end.

(** The name a new global value asking for [Name] gets when it joins the
    symbol table ([ValueSymbolTable::reinsertValue]). *)
Definition uniqueName (M : Module) (Name : string) : string * nat :=
  if name_in_use M Name
  then makeUniqueName (S (length (m_globals M) + length (m_functions M))) M Name
         (m_last_unique M)
  else (Name, m_last_unique M).

Definition set_gv_name (g : GlobalVariable) (Name : string) : GlobalVariable :=
  {| gv_name := Name; gv_isConstant := gv_isConstant g; gv_linkage := gv_linkage g;
     gv_initializer := gv_initializer g; gv_section := gv_section g;
     gv_visibility := gv_visibility g; gv_addrspace := gv_addrspace g |}.

Definition set_fn_name (f : Function) (Name : string) : Function :=
  {| fn_name := Name; fn_linkage := fn_linkage f; fn_callconv := fn_callconv f;
     fn_attrs := fn_attrs f; fn_body := fn_body f |}.

(** [Module::getGlobalVariable(Name)]: [AllowInternal] is false. *)
Definition getGlobalVariable (M : Module) (Name : string) : option GlobalVariable :=
  match find (fun g => String.eqb (gv_name g) Name) (m_globals M) with
  | Some g => if hasLocalLinkage (gv_linkage g) then None else Some g
  | None => None
  end.

Definition getNamedGlobal (M : Module) (Name : string) : option GlobalVariable :=
  find (fun g => String.eqb (gv_name g) Name) (m_globals M).

Definition getFunction (M : Module) (Name : string) : option Function :=
  find (fun f => String.eqb (fn_name f) Name) (m_functions M).

(** [new GlobalVariable(M, ..., Name, ...)]: the global is appended to the
    module and renamed if [Name] is taken; returns the global as created. *)
Definition addGlobal (M : Module) (g : GlobalVariable) : GlobalVariable * Module :=
  let '(Name, Last) := uniqueName M (gv_name g) in
  let g' := set_gv_name g Name in
  (g', {| m_source_file := m_source_file M; m_globals := m_globals M ++ [g'];
          m_functions := m_functions M; m_used := m_used M; m_last_unique := Last;
          m_default_fn_attrs := m_default_fn_attrs M |}).

(** [Function::Create(..., Name, &M)]: the same for a function. *)
Definition addFunction (M : Module) (f : Function) : Function * Module :=
  let '(Name, Last) := uniqueName M (fn_name f) in
  let f' := set_fn_name f Name in
  (f', {| m_source_file := m_source_file M; m_globals := m_globals M;
          m_functions := m_functions M ++ [f']; m_used := m_used M;
          m_last_unique := Last; m_default_fn_attrs := m_default_fn_attrs M |}).

Definition appendToUsed (M : Module) (Name : string) : Module :=
  {| m_source_file := m_source_file M; m_globals := m_globals M;
     m_functions := m_functions M; m_used := m_used M ++ [Name];
     m_last_unique := m_last_unique M; m_default_fn_attrs := m_default_fn_attrs M |}.

(** [GV->eraseFromParent()]; symbol names are unique in a module. *)
Definition eraseGlobal (M : Module) (Name : string) : Module :=
  {| m_source_file := m_source_file M;
     m_globals := filter (fun g => negb (String.eqb (gv_name g) Name)) (m_globals M);
     m_functions := m_functions M; m_used := m_used M;
     m_last_unique := m_last_unique M; m_default_fn_attrs := m_default_fn_attrs M |}.

(** [M.getOrInsertGlobal(Name, Ty, CreateGlobalCallback)]: a global
    variable named [Name] is reused; otherwise (no symbol of that name, or
    a function of that name) the callback creates a new global. *)
Definition getOrInsertGlobal (M : Module) (Name : string) (GV : GlobalVariable) : Module :=
  match getNamedGlobal M Name with
  | Some _ => M
  | None => snd (addGlobal M GV)
  end.

(** Sets the body of the function named [Name]. *)
Definition setBody (M : Module) (Name : string) (b : Body) : Module :=
  {| m_source_file := m_source_file M; m_globals := m_globals M;
     m_functions :=
       map (fun f => if String.eqb (fn_name f) Name
                     then {| fn_name := fn_name f; fn_linkage := fn_linkage f;
                             fn_callconv := fn_callconv f; fn_attrs := fn_attrs f;
                             fn_body := Some b |}
                     else f) (m_functions M);
     m_used := m_used M; m_last_unique := m_last_unique M;
     m_default_fn_attrs := m_default_fn_attrs M |}.

(** [F->addFnAttr(Kind, Val)]: a string attribute replaces one of the same
    kind. *)
Definition addFnAttr (attrs : list (string * string)) (Kind Val : string)
  : list (string * string) :=
  if existsb (fun a => String.eqb (fst a) Kind) attrs
  then map (fun a => if String.eqb (fst a) Kind then (Kind, Val) else a) attrs
  else attrs ++ [(Kind, Val)].

(** ** The pass *)

(** The name built in [createInitOrFiniGlobals] (before [new GlobalVariable]). *)
Definition entry_name (IsCtor : bool) (FName GlobalID : string) (Priority : Z) : string :=
  replace_dots
    ((if IsCtor then "__init_array_object_" else "__fini_array_object_")
       ++ FName ++ "_" ++ GlobalID ++ "_" ++ to_string Priority).

(** The global [createInitOrFiniGlobals] asks for, for one record [CS]. *)
Definition entry_global (O : Options) (M : Module) (IsCtor : bool) (CS : CtorStruct)
  : GlobalVariable :=
  let F := cs_function CS in
  let Priority := to_uint64 (getSExtValue (cs_priority CS)) in
  let PriorityStr := "." ++ to_string Priority in
  let GlobalID := if String.eqb (GlobalStr O) "" then getHash O (m_source_file M)
                  else GlobalStr O in
  let NameStr := entry_name IsCtor F GlobalID Priority in
  {| gv_name := NameStr; gv_isConstant := true; gv_linkage := ExternalLinkage;
     gv_initializer := Some (FunctionRef F);
     gv_section := (if IsCtor then ".init_array" ++ PriorityStr
                    else ".fini_array" ++ PriorityStr);
     gv_visibility := ProtectedVisibility; gv_addrspace := 4 |}.

(** One iteration of the loop over [GA->operands()]. *)
Definition create_entry (O : Options) (IsCtor : bool) (M : Module) (CS : CtorStruct) : Module :=
  let '(GV, M1) := addGlobal M (entry_global O M IsCtor CS) in
  appendToUsed M1 (gv_name GV).

Definition createInitOrFiniGlobals (O : Options) (M : Module) (GV : GlobalVariable)
  (IsCtor : bool) : bool * Module :=
  match gv_initializer GV with
  | Some (ConstantArray ((_ :: _) as ops)) => (true, fold_left (create_entry O IsCtor) ops M)
  | _ => (false, M)
  end.

Definition addKernelAttrs (F : Function) : Function :=
  {| fn_name := fn_name F; fn_linkage := fn_linkage F; fn_callconv := PTX_Kernel;
     fn_attrs := addFnAttr (addFnAttr (fn_attrs F) "nvvm.maxclusterrank" "1")
                   "nvvm.maxntid" "1";
     fn_body := fn_body F |}.

(** [None] is the [nullptr] return; otherwise the name the kernel got and
    the module. [createWithDefaultAttr] gives the new function the default
    attributes and the C calling convention; [addKernelAttrs] is applied
    before the function is added, nothing reads it in between. *)
Definition createInitOrFiniKernelFunction (M : Module) (IsCtor : bool)
  : option (string * Module) :=
  let Name := kernel_name IsCtor in
  match getFunction M Name with
  | Some _ => None
  | None =>
      let F := {| fn_name := Name; fn_linkage := WeakODRLinkage; fn_callconv := C_CC;
                  fn_attrs := m_default_fn_attrs M; fn_body := None |} in
      let '(F', M1) := addFunction M (addKernelAttrs F) in
      Some (fn_name F', M1)
  end.

Definition boundary_global (Name : string) : GlobalVariable :=
  {| gv_name := Name; gv_isConstant := false; gv_linkage := WeakAnyLinkage;
     gv_initializer := Some NullPtr; gv_section := "";
     gv_visibility := ProtectedVisibility; gv_addrspace := ADDRESS_SPACE_GLOBAL |}.

Definition start_name (IsCtor : bool) : string :=
  if IsCtor then "__init_array_start" else "__fini_array_start".
Definition end_name (IsCtor : bool) : string :=
  if IsCtor then "__init_array_end" else "__fini_array_end".

(** The module-level effect of [createInitOrFiniCalls] on the kernel
    [FName]: the two boundary globals are got or inserted, and the kernel
    gets its loop body. *)
Definition createInitOrFiniCalls (M : Module) (FName : string) (IsCtor : bool) : Module :=
  let M1 := getOrInsertGlobal M (start_name IsCtor) (boundary_global (start_name IsCtor)) in
  let M2 := getOrInsertGlobal M1 (end_name IsCtor) (boundary_global (end_name IsCtor)) in
  setBody M2 FName (InitOrFiniCalls IsCtor).

Definition createInitOrFiniKernel (O : Options) (M : Module) (GlobalName : string)
  (IsCtor : bool) : bool * Module :=
  match getGlobalVariable M GlobalName with
  | None => (false, M)
  | Some GV =>
      match gv_initializer GV with
      | None => (false, M)
      | Some _ =>
          let (ok, M1) := createInitOrFiniGlobals O M GV IsCtor in
          if negb ok then (false, M1) else
          if negb (CreateKernels O) then (true, M1) else
          match createInitOrFiniKernelFunction M1 IsCtor with
          | None => (false, M1)
          | Some (FName, M2) =>
              let M3 := createInitOrFiniCalls M2 FName IsCtor in
              (true, eraseGlobal M3 GlobalName)
          end
      end
  end.

Definition lowerCtorsAndDtors (O : Options) (M : Module) : bool * Module :=
  let (m1, M1) := createInitOrFiniKernel O M "llvm.global_ctors" true in
  let (m2, M2) := createInitOrFiniKernel O M1 "llvm.global_dtors" false in
  (m1 || m2, M2).

Local Close Scope string_scope.

(** ** Run-time behaviour of the synthesised kernel body

    Pointers are 64-bit addresses (Z modulo 2^64); a slot is a [ptr], 8
    bytes wide. A run of the kernel produces the list of slot addresses it
    loads a callback from and calls, in order. The loop may not terminate
    on arbitrary boundary values, so it runs on fuel; [None] means out of
    fuel. *)

Definition wrap64 (x : Z) : Z := x mod 2 ^ 64.

(** The two's-complement reading of a 64-bit pattern. *)
Definition signed64 (x : Z) : Z := if x <? 2 ^ 63 then x else x - 2 ^ 64.

(** [GEP ptr, ptr p, i64 k]: [p + 8 * k]. *)
Definition gep (p k : Z) : Z := wrap64 (p + 8 * signed64 (wrap64 k)).

(** [ashr i64 x, n]. *)
Definition ashr64 (x n : Z) : Z := wrap64 (Z.shiftr (signed64 x) n).

(** Block [while.entry]: [ptr] is the phi node; the callback is loaded from
    [ptr] and called; [next] is [ptr] advanced by one slot; the loop exits
    when [next == stop] (ctor) or [next <u stop] (dtor). *)
Fixpoint while_entry (IsCtor : bool) (fuel : nat) (ptr stop : Z) : option (list Z) :=
  match fuel with
  | O => None
  | S fuel' =>
      let next := gep ptr (if IsCtor then 1 else -1) in
      let end_ := if IsCtor then next =? stop else next <? stop in
      if end_ then Some [ptr]
      else option_map (cons ptr) (while_entry IsCtor fuel' next stop)
  end.

(** Block [entry], given the values the loader stored in the start and end
    boundary globals. *)
Definition init_or_fini_calls (IsCtor : bool) (fuel : nat) (start stop : Z)
  : option (list Z) :=
  let BeginVal0 := start in
  let EndVal0 := stop in
  let '(BeginVal, EndVal) :=
    if IsCtor then (BeginVal0, EndVal0) else
      let SubInst := wrap64 (EndVal0 - BeginVal0) in
      let Offset := ashr64 SubInst 3 in
      let ValuePtr := gep BeginVal0 Offset in
      (gep ValuePtr (-1), BeginVal0) in
  let cond := if IsCtor then negb (BeginVal =? EndVal) else EndVal <? BeginVal in
  if cond then while_entry IsCtor fuel BeginVal EndVal else Some [].

(** The slots [start], [start + 8], ..., [start + 8 (n - 1)]. *)
Definition slots (start : Z) (n : nat) : list Z :=
  map (fun i => start + 8 * Z.of_nat i) (seq 0 n).

Example ctor_three : init_or_fini_calls true 10 4096 4120 = Some [4096; 4104; 4112].
Proof. reflexivity. Qed.
Example dtor_three : init_or_fini_calls false 10 4096 4120 = Some [4112; 4104; 4096].
Proof. reflexivity. Qed.
Example dtor_one : init_or_fini_calls false 10 4096 4104 = Some [].
Proof. reflexivity. Qed.

(** ** Arithmetic and list helpers *)

Lemma wrap64_small (x : Z) : 0 <= x < 2 ^ 64 -> wrap64 x = x.
Proof. intros H. unfold wrap64. apply Z.mod_small. exact H. Qed.

Lemma signed64_wrap64 (k : Z) : - 2 ^ 63 <= k < 2 ^ 63 -> signed64 (wrap64 k) = k.
Proof.
  intros Hk. unfold signed64, wrap64.
  destruct (Z.leb_spec 0 k) as [Hpos | Hneg].
  - rewrite Z.mod_small by lia.
    destruct (Z.ltb_spec k (2 ^ 63)); lia.
  - replace (k mod 2 ^ 64) with (k + 2 ^ 64)
      by (apply Z.mod_unique with (-1); lia).
    destruct (Z.ltb_spec (k + 2 ^ 64) (2 ^ 63)); lia.
Qed.

Lemma gep_in_range (p k : Z) :
  - 2 ^ 63 <= k < 2 ^ 63 -> 0 <= p + 8 * k < 2 ^ 64 -> gep p k = p + 8 * k.
Proof.
  intros Hk Hp. unfold gep. rewrite signed64_wrap64 by exact Hk.
  apply wrap64_small. exact Hp.
Qed.

Lemma slots_S_front (start : Z) (n : nat) :
  slots start (S n) = start :: slots (start + 8) n.
Proof.
  unfold slots. cbn [seq map]. f_equal; [lia |].
  rewrite <- seq_shift, map_map. apply map_ext. intros i. rewrite Nat2Z.inj_succ. lia.
Qed.

Lemma slots_S_back (start : Z) (n : nat) :
  slots start (S n) = slots start n ++ [start + 8 * Z.of_nat n].
Proof. unfold slots. rewrite seq_S, map_app. reflexivity. Qed.

(** The forward loop, entered at [p] with [m + 1] slots left. *)
Lemma while_entry_ctor (m fuel : nat) (p : Z) :
  0 <= p -> p + 8 * Z.of_nat (S m) < 2 ^ 64 -> (S m <= fuel)%nat ->
  while_entry true fuel p (p + 8 * Z.of_nat (S m)) = Some (slots p (S m)).
Proof.
  revert fuel p. induction m as [| m IH]; intros fuel p Hp Hbound Hfuel.
  - destruct fuel as [| fuel']; [lia |]. cbn [while_entry].
    rewrite gep_in_range by lia.
    rewrite Z.eqb_refl. unfold slots. cbn [seq map]. do 3 f_equal. lia.
  - destruct fuel as [| fuel']; [lia |]. cbn [while_entry].
    rewrite gep_in_range by lia.
    replace (p + 8 * 1 =? p + 8 * Z.of_nat (S (S m))) with false
      by (symmetry; apply Z.eqb_neq; lia).
    replace (p + 8 * Z.of_nat (S (S m))) with ((p + 8 * 1) + 8 * Z.of_nat (S m)) by lia.
    rewrite IH by lia. simpl option_map.
    rewrite (slots_S_front p (S m)). reflexivity.
Qed.

(** The backward loop, entered at [start + 8 k]. *)
Lemma while_entry_dtor (k fuel : nat) (start : Z) :
  8 <= start -> start + 8 * Z.of_nat k < 2 ^ 64 -> (S k <= fuel)%nat ->
  while_entry false fuel (start + 8 * Z.of_nat k) start = Some (rev (slots start (S k))).
Proof.
  revert fuel. induction k as [| k IH]; intros fuel Hs Hbound Hfuel.
  - destruct fuel as [| fuel']; [lia |]. cbn [while_entry].
    rewrite gep_in_range by lia.
    replace (start + 8 * Z.of_nat 0 + 8 * -1 <? start) with true
      by (symmetry; apply Z.ltb_lt; lia).
    reflexivity.
  - destruct fuel as [| fuel']; [lia |]. cbn [while_entry].
    rewrite gep_in_range by lia.
    replace (start + 8 * Z.of_nat (S k) + 8 * -1 <? start) with false
      by (symmetry; apply Z.ltb_ge; lia).
    replace (start + 8 * Z.of_nat (S k) + 8 * -1) with (start + 8 * Z.of_nat k) by lia.
    rewrite IH by lia. simpl option_map.
    rewrite (slots_S_back start (S k)), rev_app_distr. reflexivity.
Qed.

Lemma ashr64_slots (n : Z) : 0 <= 8 * n < 2 ^ 63 -> ashr64 (8 * n) 3 = n.
Proof.
  intros Hn. unfold ashr64, signed64.
  replace (8 * n <? 2 ^ 63) with true by (symmetry; apply Z.ltb_lt; lia).
  rewrite Z.shiftr_div_pow2 by lia.
  replace (8 * n / 2 ^ 3) with n.
  - apply wrap64_small. lia.
  - change (2 ^ 3) with 8. rewrite Z.mul_comm, Z.div_mul; lia.
Qed.

(** The destructor kernel when the array has at least two slots. *)
Lemma dtor_kernel_reverse_from_two (start : Z) (n fuel : nat) :
  8 <= start -> 8 * Z.of_nat n < 2 ^ 63 -> start + 8 * Z.of_nat n < 2 ^ 64 ->
  (2 <= n)%nat -> (n <= fuel)%nat ->
  init_or_fini_calls false fuel start (start + 8 * Z.of_nat n) = Some (rev (slots start n)).
Proof.
  intros Hs Hn Hb H2 Hf. unfold init_or_fini_calls.
  replace (start + 8 * Z.of_nat n - start) with (8 * Z.of_nat n) by lia.
  rewrite wrap64_small by lia.
  rewrite ashr64_slots by lia.
  rewrite (gep_in_range start (Z.of_nat n)) by lia.
  rewrite gep_in_range by lia.
  replace (start <? start + 8 * Z.of_nat n + 8 * -1) with true
    by (symmetry; apply Z.ltb_lt; lia).
  destruct n as [| k]; [lia |].
  replace (start + 8 * Z.of_nat (S k) + 8 * -1) with (start + 8 * Z.of_nat k) by lia.
  apply while_entry_dtor; lia.
Qed.

(** ** Claims about the synthesised loop *)

(** C3: for a constructor array of [n] slots between the loaded [start] and
    [end] values, the forward kernel loads and calls exactly the slots
    [start], [start + 8], ..., [end - 8], each once and in increasing
    order, and nothing at or past [end]; for [n = 0] ([start = end]) it
    calls nothing. *)
Theorem ctor_kernel_calls_each_slot_in_order (start : Z) (n fuel : nat) :
  0 <= start -> start + 8 * Z.of_nat n < 2 ^ 64 -> (n <= fuel)%nat ->
  init_or_fini_calls true fuel start (start + 8 * Z.of_nat n) = Some (slots start n).
Proof.
  intros Hs Hb Hf. unfold init_or_fini_calls.
  destruct n as [| m].
  - replace (start + 8 * Z.of_nat 0) with start by lia.
    rewrite Z.eqb_refl. reflexivity.
  - replace (start =? start + 8 * Z.of_nat (S m)) with false
      by (symmetry; apply Z.eqb_neq; lia).
    apply while_entry_ctor; lia.
Qed.

(** C4 (code_bug): with a single destructor slot ([end = start + 8]) the
    entry test [start + 8 * 1 - 8 >u start] is false, so the destructor
    kernel calls nothing, whatever the fuel. *)
Theorem dtor_kernel_single_slot_not_called (fuel : nat) :
  init_or_fini_calls false fuel 4096 4104 = Some [].
Proof. reflexivity. Qed.


(** ** String lemmas *)

Local Open Scope string_scope.

Lemma replace_dots_app (a b : string) :
  replace_dots (a ++ b) = replace_dots a ++ replace_dots b.
Proof. induction a as [| c a IH]; simpl; [reflexivity | rewrite IH; reflexivity]. Qed.

Lemma append_cancel_l (s a b : string) : s ++ a = s ++ b -> a = b.
Proof.
  induction s as [| c s IH]; simpl; [auto |].
  intros H. injection H as H. apply IH. exact H.
Qed.

Lemma list_ascii_of_string_app (a b : string) :
  list_ascii_of_string (a ++ b) = (list_ascii_of_string a ++ list_ascii_of_string b)%list.
Proof. induction a as [| c a IH]; simpl; [reflexivity | rewrite IH; reflexivity]. Qed.

Lemma append_cancel_r (s a b : string) : a ++ s = b ++ s -> a = b.
Proof.
  intros H. apply (f_equal list_ascii_of_string) in H.
  rewrite !list_ascii_of_string_app in H. apply app_inv_tail in H.
  rewrite <- (string_of_list_ascii_of_string a), <- (string_of_list_ascii_of_string b).
  rewrite H. reflexivity.
Qed.

(** Decimal digits contain no ['.']. *)
Lemma replace_dots_uint (d : Decimal.uint) :
  replace_dots (uint_to_string d) = uint_to_string d.
Proof. induction d; simpl; try rewrite IHd; reflexivity. Qed.

Lemma uint_to_string_inj (d1 d2 : Decimal.uint) :
  uint_to_string d1 = uint_to_string d2 -> d1 = d2.
Proof.
  revert d2. induction d1; intros [] H; simpl in H;
    try discriminate; try reflexivity;
    injection H as H; f_equal; apply IHd1; exact H.
Qed.

Lemma to_string_inj (x y : Z) : 0 <= x -> 0 <= y -> to_string x = to_string y -> x = y.
Proof.
  intros Hx Hy H. unfold to_string in H.
  apply uint_to_string_inj, DecimalN.Unsigned.to_uint_inj in H.
  apply Z2N.inj; assumption.
Qed.

(** Every character of [std::to_string] is a decimal digit. *)
Fixpoint all_digits (s : string) : bool :=
  match s with
  | EmptyString => true
  | String c s' =>
      (Ascii.leb "0"%char c && Ascii.leb c "9"%char) && all_digits s'
  end.

Lemma all_digits_to_string (x : Z) : all_digits (to_string x) = true.
Proof. unfold to_string. induction (N.to_uint (Z.to_N x)); simpl; auto. Qed.

Lemma replace_dots_to_string (x : Z) : replace_dots (to_string x) = to_string x.
Proof. apply replace_dots_uint. Qed.

(** The namer with its ['.'] substitution pushed inside. *)
Lemma entry_name_split (IsCtor : bool) (FName GlobalID : string) (P : Z) :
  entry_name IsCtor FName GlobalID P =
  (if IsCtor then "__init_array_object_" else "__fini_array_object_")
    ++ replace_dots FName ++ "_" ++ replace_dots GlobalID ++ "_" ++ to_string P.
Proof.
  unfold entry_name. rewrite !replace_dots_app, replace_dots_to_string.
  destruct IsCtor; reflexivity.
Qed.

Local Close Scope string_scope.

(** ** Priorities *)

(** A well-formed [ConstantInt] of at most 64 bits. *)
Definition wf_ConstantInt (c : ConstantInt) : Prop :=
  0 < ci_width c <= 64 /\ 0 <= ci_bits c < 2 ^ ci_width c.

Lemma getSExtValue_range (c : ConstantInt) :
  wf_ConstantInt c -> - 2 ^ 63 <= getSExtValue c < 2 ^ 63.
Proof.
  intros [Hw Hb]. unfold getSExtValue.
  set (w := ci_width c) in *. set (b := ci_bits c) in *.
  assert (Hpow : 2 ^ w = 2 * 2 ^ (w - 1)).
  { rewrite <- Z.pow_succ_r by lia. f_equal. lia. }
  assert (Hh : 2 ^ (w - 1) <= 2 ^ 63) by (apply Z.pow_le_mono_r; lia).
  assert (Hpos : 0 < 2 ^ (w - 1)) by (apply Z.pow_pos_nonneg; lia).
  pose proof (Z.testbit_spec' b (w - 1) ltac:(lia)) as Ht.
  assert (Hq : 0 <= b / 2 ^ (w - 1) < 2).
  { split; [apply Z.div_pos; lia | apply Z.div_lt_upper_bound; lia]. }
  rewrite Z.mod_small in Ht by lia.
  pose proof (Z.div_mod b (2 ^ (w - 1)) ltac:(lia)) as Hdm.
  pose proof (Z.mod_pos_bound b (2 ^ (w - 1)) Hpos) as Hr.
  destruct (Z.testbit b (w - 1)); simpl in Ht; rewrite <- Ht in Hdm; lia.
Qed.

Lemma to_uint64_neg (x : Z) : - 2 ^ 63 <= x < 0 -> to_uint64 x = x + 2 ^ 64.
Proof. intros H. unfold to_uint64. symmetry. apply Z.mod_unique with (-1); lia. Qed.

Lemma to_uint64_range (x : Z) : 0 <= to_uint64 x < 2 ^ 64.
Proof. unfold to_uint64. apply Z.mod_pos_bound. lia. Qed.

Lemma to_uint64_inj (x y : Z) :
  - 2 ^ 63 <= x < 2 ^ 63 -> - 2 ^ 63 <= y < 2 ^ 63 -> to_uint64 x = to_uint64 y -> x = y.
Proof.
  intros Hx Hy H.
  destruct (Z.ltb_spec x 0), (Z.ltb_spec y 0).
  - rewrite !to_uint64_neg in H by lia. lia.
  - rewrite to_uint64_neg in H by lia. unfold to_uint64 in H.
    rewrite (Z.mod_small y) in H by lia. lia.
  - rewrite (to_uint64_neg y) in H by lia. unfold to_uint64 in H.
    rewrite (Z.mod_small x) in H by lia. lia.
  - unfold to_uint64 in H. rewrite !Z.mod_small in H by lia. exact H.
Qed.

Lemma string_append_assoc (a b c : string) :
  (a ++ b ++ c)%string = ((a ++ b) ++ c)%string.
Proof. induction a as [| x a IH]; simpl; [reflexivity | rewrite IH; reflexivity]. Qed.

Lemma entry_global_name (O : Options) (M : Module) (IsCtor : bool) (CS : CtorStruct) :
  gv_name (entry_global O M IsCtor CS) =
  entry_name IsCtor (cs_function CS)
    (if String.eqb (GlobalStr O) "" then getHash O (m_source_file M) else GlobalStr O)
    (to_uint64 (getSExtValue (cs_priority CS))).
Proof. reflexivity. Qed.

(** ** Claims about names and sections *)

Local Open Scope string_scope.

Definition opts_id : Options :=
  {| GlobalStr := "id"; CreateKernels := true; getHash := fun _ => "" |}.

Definition empty_module : Module :=
  {| m_source_file := "a.cpp"; m_globals := []; m_functions := []; m_used := [];
     m_last_unique := 0; m_default_fn_attrs := [] |}.

Definition i32 (v : Z) : ConstantInt := {| ci_width := 32; ci_bits := v mod 2 ^ 32 |}.

(** C7 (counterexample): the functions [a.b] and [a_b] with the same
    priority 65535 get the same entry-global name
    [__init_array_object_a_b_id_65535]. *)
Lemma entry_names_collide_after_dot_replacement :
  "a.b" <> "a_b" /\
  gv_name (entry_global opts_id empty_module true
             {| cs_priority := i32 65535; cs_function := "a.b" |}) =
  gv_name (entry_global opts_id empty_module true
             {| cs_priority := i32 65535; cs_function := "a_b" |}) /\
  gv_name (entry_global opts_id empty_module true
             {| cs_priority := i32 65535; cs_function := "a.b" |}) =
  "__init_array_object_a_b_id_65535".
Proof. split; [discriminate | split; vm_compute; reflexivity]. Qed.

(** C7 (amended): two records of one kind that target the same function
    with different priorities get different names; two records with the
    same priority get different names exactly when their function names
    still differ after every ['.'] is replaced by ['_']. *)
Theorem entry_names_distinct (O : Options) (M : Module) (IsCtor : bool)
  (CS1 CS2 : CtorStruct) :
  wf_ConstantInt (cs_priority CS1) -> wf_ConstantInt (cs_priority CS2) ->
  (cs_function CS1 = cs_function CS2 ->
   getSExtValue (cs_priority CS1) <> getSExtValue (cs_priority CS2) ->
   gv_name (entry_global O M IsCtor CS1) <> gv_name (entry_global O M IsCtor CS2)) /\
  (getSExtValue (cs_priority CS1) = getSExtValue (cs_priority CS2) ->
   (gv_name (entry_global O M IsCtor CS1) <> gv_name (entry_global O M IsCtor CS2) <->
    replace_dots (cs_function CS1) <> replace_dots (cs_function CS2))).
Proof.
  intros Hwf1 Hwf2. rewrite !entry_global_name, !entry_name_split.
  set (ID := if String.eqb (GlobalStr O) "" then getHash O (m_source_file M)
             else GlobalStr O).
  set (Pre := if IsCtor then "__init_array_object_" else "__fini_array_object_").
  split.
  - intros HF Hp Heq. apply Hp. rewrite HF in Heq.
    do 5 apply append_cancel_l in Heq.
    apply to_uint64_inj; try apply getSExtValue_range; try assumption.
    apply to_string_inj; try apply to_uint64_range; exact Heq.
  - intros Hp. rewrite Hp.
    set (Rest := "_" ++ replace_dots ID ++ "_" ++
                 to_string (to_uint64 (getSExtValue (cs_priority CS2)))).
    split; intros Hne Heq; apply Hne.
    + rewrite Heq. reflexivity.
    + apply append_cancel_l in Heq. apply (append_cancel_r Rest). exact Heq.
Qed.

(** C10: a negative priority is sign-extended to 64 bits and printed as an
    unsigned 64-bit decimal number, [p + 2^64], with digits only, both at
    the end of the entry-global name and in its section name. *)
Theorem negative_priority_rendered_unsigned (O : Options) (M : Module) (IsCtor : bool)
  (CS : CtorStruct) :
  wf_ConstantInt (cs_priority CS) -> getSExtValue (cs_priority CS) < 0 ->
  let U := to_string (getSExtValue (cs_priority CS) + 2 ^ 64) in
  gv_section (entry_global O M IsCtor CS) =
    (if IsCtor then ".init_array." else ".fini_array.") ++ U /\
  (exists Pre, gv_name (entry_global O M IsCtor CS) = Pre ++ "_" ++ U) /\
  all_digits U = true.
Proof.
  intros Hwf Hneg U. pose proof (getSExtValue_range _ Hwf) as Hr.
  assert (HU : to_uint64 (getSExtValue (cs_priority CS)) =
               getSExtValue (cs_priority CS) + 2 ^ 64) by (apply to_uint64_neg; lia).
  split; [| split].
  - unfold entry_global. simpl. rewrite HU. destruct IsCtor; reflexivity.
  - rewrite entry_global_name, entry_name_split, HU.
    eexists. rewrite !string_append_assoc. reflexivity.
  - apply all_digits_to_string.
Qed.

Local Close Scope string_scope.


(** ** Module-level lemmas *)

Lemma string_append_empty (s : string) : (s ++ "")%string = s.
Proof. induction s as [| c s IH]; simpl; [reflexivity | rewrite IH; reflexivity]. Qed.

Lemma makeUniqueName_prefix (M : Module) (Base : string) :
  forall fuel Last, exists sfx, fst (makeUniqueName fuel M Base Last) = (Base ++ sfx)%string.
Proof.
  induction fuel as [| fuel IH]; intros Last; simpl.
  - eexists. reflexivity.
  - destruct (name_in_use M _); [apply IH | eexists; reflexivity].
Qed.

(** A new symbol keeps the name it asks for, possibly with a suffix. *)
Lemma uniqueName_prefix (M : Module) (Name : string) :
  exists sfx, fst (uniqueName M Name) = (Name ++ sfx)%string.
Proof.
  unfold uniqueName. destruct (name_in_use M Name).
  - apply makeUniqueName_prefix.
  - exists ""%string. simpl. symmetry. apply string_append_empty.
Qed.

Lemma uniqueName_fresh (M : Module) (Name : string) :
  name_in_use M Name = false -> uniqueName M Name = (Name, m_last_unique M).
Proof. unfold uniqueName. intros H. rewrite H. reflexivity. Qed.

(** [g] is [g0] as created under its name, possibly with a suffix added by
    the symbol table. *)
Definition renamed_from (g0 g : GlobalVariable) : Prop :=
  exists sfx, g = set_gv_name g0 (gv_name g0 ++ sfx).

Lemma renamed_from_initializer (g0 g : GlobalVariable) :
  renamed_from g0 g -> gv_initializer g = gv_initializer g0.
Proof. intros [sfx ->]. reflexivity. Qed.

Lemma renamed_from_name (g0 g : GlobalVariable) :
  renamed_from g0 g -> exists sfx, gv_name g = (gv_name g0 ++ sfx)%string.
Proof. intros [sfx ->]. exists sfx. reflexivity. Qed.

Lemma addGlobal_spec (M : Module) (g : GlobalVariable) :
  renamed_from g (fst (addGlobal M g)) /\
  m_globals (snd (addGlobal M g)) = m_globals M ++ [fst (addGlobal M g)] /\
  m_functions (snd (addGlobal M g)) = m_functions M /\
  m_used (snd (addGlobal M g)) = m_used M /\
  m_source_file (snd (addGlobal M g)) = m_source_file M /\
  m_default_fn_attrs (snd (addGlobal M g)) = m_default_fn_attrs M.
Proof.
  unfold addGlobal. destruct (uniqueName_prefix M (gv_name g)) as [sfx H].
  destruct (uniqueName M (gv_name g)) as [N L]. simpl in H. subst N.
  simpl. repeat split; try reflexivity. exists sfx. reflexivity.
Qed.

Lemma entry_global_source (O : Options) (M M' : Module) (IsCtor : bool) :
  m_source_file M' = m_source_file M -> entry_global O M' IsCtor = entry_global O M IsCtor.
Proof. intros H. unfold entry_global. rewrite H. reflexivity. Qed.

(** The loop of [createInitOrFiniGlobals]: one new global per record, as
    asked for up to a suffix, appended to the globals and to [llvm.used]. *)
Lemma fold_create_entry (O : Options) (IsCtor : bool) (ops : list CtorStruct) :
  forall M,
  m_source_file (fold_left (create_entry O IsCtor) ops M) = m_source_file M /\
  m_functions (fold_left (create_entry O IsCtor) ops M) = m_functions M /\
  m_default_fn_attrs (fold_left (create_entry O IsCtor) ops M) = m_default_fn_attrs M /\
  exists gs,
    m_globals (fold_left (create_entry O IsCtor) ops M) = m_globals M ++ gs /\
    m_used (fold_left (create_entry O IsCtor) ops M) = m_used M ++ map gv_name gs /\
    Forall2 (fun CS g => renamed_from (entry_global O M IsCtor CS) g) ops gs.
Proof.
  induction ops as [| CS ops IH]; intros M; cbn [fold_left].
  - repeat split; try reflexivity. exists []. rewrite !app_nil_r. repeat split; constructor.
  - set (M1 := create_entry O IsCtor M CS).
    destruct (addGlobal_spec M (entry_global O M IsCtor CS)) as (Hr & Hg & Hf & Hu & Hs & Hd).
    assert (E : M1 = appendToUsed (snd (addGlobal M (entry_global O M IsCtor CS)))
                       (gv_name (fst (addGlobal M (entry_global O M IsCtor CS))))).
    { unfold M1, create_entry. destruct (addGlobal M _). reflexivity. }
    assert (Hs1 : m_source_file M1 = m_source_file M) by (rewrite E; exact Hs).
    assert (Hf1 : m_functions M1 = m_functions M) by (rewrite E; exact Hf).
    assert (Hd1 : m_default_fn_attrs M1 = m_default_fn_attrs M) by (rewrite E; exact Hd).
    assert (Hg1 : m_globals M1 = m_globals M ++ [fst (addGlobal M (entry_global O M IsCtor CS))])
      by (rewrite E; exact Hg).
    assert (Hu1 : m_used M1 =
                  m_used M ++ [gv_name (fst (addGlobal M (entry_global O M IsCtor CS)))])
      by (rewrite E; simpl; rewrite Hu; reflexivity).
    destruct (IH M1) as (Hs' & Hf' & Hd' & gs & Hg' & Hu' & HF).
    repeat split; try congruence.
    exists (fst (addGlobal M (entry_global O M IsCtor CS)) :: gs). split; [| split].
    + rewrite Hg', Hg1, <- app_assoc. reflexivity.
    + rewrite Hu', Hu1, <- app_assoc. reflexivity.
    + constructor; [exact Hr |].
      rewrite <- (entry_global_source O M M1 IsCtor Hs1). exact HF.
Qed.

Lemma createInitOrFiniGlobals_ok (O : Options) (M : Module) (GV : GlobalVariable)
  (IsCtor : bool) (ops : list CtorStruct) :
  gv_initializer GV = Some (ConstantArray ops) -> ops <> [] ->
  createInitOrFiniGlobals O M GV IsCtor = (true, fold_left (create_entry O IsCtor) ops M).
Proof.
  intros Hinit Hne. unfold createInitOrFiniGlobals. rewrite Hinit.
  destruct ops as [| CS ops]; [congruence | reflexivity].
Qed.

Lemma find_app_left {A} (f : A -> bool) (l1 l2 : list A) (x : A) :
  find f l1 = Some x -> find f (l1 ++ l2) = Some x.
Proof.
  induction l1 as [| a l1 IH]; simpl; [discriminate |].
  destruct (f a); auto.
Qed.

Lemma getNamedGlobal_none_getGlobalVariable (M : Module) (Name : string) :
  getNamedGlobal M Name = None -> getGlobalVariable M Name = None.
Proof. unfold getNamedGlobal, getGlobalVariable. intros H. rewrite H. reflexivity. Qed.


Lemma getFunction_same (M M' : Module) (Name : string) :
  m_functions M' = m_functions M -> getFunction M' Name = getFunction M Name.
Proof. unfold getFunction. intros H. rewrite H. reflexivity. Qed.

Lemma getFunction_fold (O : Options) (IsCtor : bool) (ops : list CtorStruct) (M : Module)
  (Name : string) :
  getFunction (fold_left (create_entry O IsCtor) ops M) Name = getFunction M Name.
Proof. apply getFunction_same. apply fold_create_entry. Qed.

Lemma absent_array_noop (O : Options) (M : Module) (GlobalName : string) (IsCtor : bool) :
  getNamedGlobal M GlobalName = None ->
  createInitOrFiniKernel O M GlobalName IsCtor = (false, M).
Proof.
  intros H. unfold createInitOrFiniKernel.
  rewrite (getNamedGlobal_none_getGlobalVariable M GlobalName H). reflexivity.
Qed.

(** ** Claims about the driver *)

(** C5: when the metadata array global is absent, is a declaration, has an
    initializer that is not a [ConstantArray], or is an empty
    [ConstantArray], [createInitOrFiniKernel] returns "unmodified" and the
    module exactly as it was. *)
Theorem malformed_array_is_noop (O : Options) (M : Module) (GlobalName : string)
  (IsCtor : bool) :
  (getNamedGlobal M GlobalName = None \/
   exists GV, getGlobalVariable M GlobalName = Some GV /\
     (gv_initializer GV = None \/
      (exists C, gv_initializer GV = Some C /\ forall ops, C <> ConstantArray ops) \/
      gv_initializer GV = Some (ConstantArray []))) ->
  createInitOrFiniKernel O M GlobalName IsCtor = (false, M).
Proof.
  intros [Habs | (GV & Hgv & [Hnone | [(C & HC & Hnot) | Hempty]])];
    unfold createInitOrFiniKernel.
  - fold (createInitOrFiniKernel O M GlobalName IsCtor).
    apply absent_array_noop. exact Habs.
  - rewrite Hgv, Hnone. reflexivity.
  - rewrite Hgv, HC. unfold createInitOrFiniGlobals. rewrite HC.
    destruct C as [ops | | |]; try reflexivity.
    exfalso. exact (Hnot ops eq_refl).
  - rewrite Hgv, Hempty. unfold createInitOrFiniGlobals. rewrite Hempty. reflexivity.
Qed.


(** C6: once a run has deleted both metadata arrays, running the pass again
    changes nothing and reports the module unmodified. *)
Theorem second_run_is_noop (O : Options) (M M1 : Module) (b : bool) :
  lowerCtorsAndDtors O M = (b, M1) ->
  getNamedGlobal M1 "llvm.global_ctors" = None ->
  getNamedGlobal M1 "llvm.global_dtors" = None ->
  lowerCtorsAndDtors O M1 = (false, M1).
Proof.
  intros _ Hc Hd. unfold lowerCtorsAndDtors.
  rewrite (absent_array_noop O M1 _ true Hc).
  rewrite (absent_array_noop O M1 _ false Hd). reflexivity.
Qed.

(** ** Boundary symbols *)

Definition is_boundary_name (s : string) : bool :=
  existsb (String.eqb s) [start_name true; end_name true; start_name false; end_name false].

(** The [__init_array_*] / [__fini_array_*] globals of a module. *)
Definition boundary_globals (M : Module) : list GlobalVariable :=
  filter (fun g => is_boundary_name (gv_name g)) (m_globals M).

(** Whether [createInitOrFiniKernel] gets past [createInitOrFiniGlobals]. *)
Definition materializes (O : Options) (M : Module) (GlobalName : string) (IsCtor : bool)
  : bool :=
  match getGlobalVariable M GlobalName with
  | Some GV =>
      match gv_initializer GV with
      | Some _ => fst (createInitOrFiniGlobals O M GV IsCtor)
      | None => false
      end
  | None => false
  end.

(** An entry-global name, even with a suffix from the symbol table, is not
    a boundary name. *)
Lemma entry_name_not_boundary (IsCtor : bool) (FName GlobalID : string) (P : Z)
  (sfx : string) :
  is_boundary_name (entry_name IsCtor FName GlobalID P ++ sfx) = false.
Proof. rewrite entry_name_split. destruct IsCtor; reflexivity. Qed.

Lemma boundary_globals_fold (O : Options) (M : Module) (IsCtor : bool)
  (ops : list CtorStruct) :
  boundary_globals (fold_left (create_entry O IsCtor) ops M) = boundary_globals M.
Proof.
  destruct (fold_create_entry O IsCtor ops M) as (_ & _ & _ & gs & Hg & _ & HF).
  unfold boundary_globals. rewrite Hg, filter_app.
  rewrite <- (app_nil_r (filter _ (m_globals M))) at 2. f_equal.
  clear Hg. induction HF as [| CS g ops gs Hr HF IH]; simpl; [reflexivity |].
  destruct (renamed_from_name _ _ Hr) as [sfx ->].
  rewrite entry_global_name, entry_name_not_boundary. exact IH.
Qed.

(** C9: the boundary globals are only created on the kernel path: with
    kernel emission off, when the entry globals are not materialised, or
    when the entry-point function already exists, the boundary globals of
    the module are the ones it had before. *)
Theorem boundary_symbols_only_on_kernel_path (O : Options) (M : Module)
  (GlobalName : string) (IsCtor : bool) :
  CreateKernels O = false \/ materializes O M GlobalName IsCtor = false \/
  getFunction M (kernel_name IsCtor) <> None ->
  boundary_globals (snd (createInitOrFiniKernel O M GlobalName IsCtor)) = boundary_globals M.
Proof.
  intros Hcase. unfold createInitOrFiniKernel.
  unfold materializes in Hcase.
  destruct (getGlobalVariable M GlobalName) as [GV |]; [| reflexivity].
  destruct (gv_initializer GV) as [C |] eqn:Hinit; [| reflexivity].
  unfold createInitOrFiniGlobals in *. rewrite Hinit in *.
  destruct C as [[| CS ops] | | |]; try reflexivity.
  simpl in Hcase.
  pose proof (boundary_globals_fold O M IsCtor (CS :: ops)) as Hb.
  pose proof (getFunction_fold O IsCtor (CS :: ops) M (kernel_name IsCtor)) as Hfold.
  remember (fold_left (create_entry O IsCtor) (CS :: ops) M) as M1 eqn:EM1.
  destruct (CreateKernels O) eqn:Hck; simpl; [| exact Hb].
  unfold createInitOrFiniKernelFunction. rewrite Hfold.
  destruct (getFunction M (kernel_name IsCtor)) as [F |] eqn:Hf.
  - exact Hb.
  - destruct Hcase as [H | [H | H]]; congruence.
Qed.

(** ** Concrete modules *)

Local Open Scope string_scope.

Definition opts_no_kernels : Options :=
  {| GlobalStr := "id"; CreateKernels := false; getHash := fun _ => "" |}.

Definition metadata_array (Name : string) (ops : list CtorStruct) : GlobalVariable :=
  {| gv_name := Name; gv_isConstant := false; gv_linkage := AppendingLinkage;
     gv_initializer := Some (ConstantArray ops); gv_section := "";
     gv_visibility := DefaultVisibility; gv_addrspace := 0 |}.

Definition user_kernel (IsCtor : bool) : Function :=
  {| fn_name := kernel_name IsCtor; fn_linkage := ExternalLinkage; fn_callconv := PTX_Kernel;
     fn_attrs := []; fn_body := None |}.

(** A fresh module of [a.cpp] whose functions get a [frame-pointer]
    attribute by default. *)
Definition module_of (gs : list GlobalVariable) (fs : list Function) : Module :=
  {| m_source_file := "a.cpp"; m_globals := gs; m_functions := fs; m_used := [];
     m_last_unique := 0; m_default_fn_attrs := [("frame-pointer", "all")] |}.

Definition rec_A : CtorStruct := {| cs_priority := i32 65535; cs_function := "A" |}.
Definition rec_X : CtorStruct := {| cs_priority := i32 0; cs_function := "X" |}.
Definition rec_Y : CtorStruct := {| cs_priority := i32 0; cs_function := "Y" |}.

(** [llvm.global_ctors = [(65535, @A, null)]] next to a user-defined
    [nvptx$device$init]. *)
Definition module_ctor_clash : Module :=
  module_of [metadata_array "llvm.global_ctors" [rec_A]] [user_kernel true].

Definition module_ctor_A : Module :=
  module_of [metadata_array "llvm.global_ctors" [rec_A]] [].

Definition module_both : Module :=
  module_of [metadata_array "llvm.global_ctors" [rec_A];
             metadata_array "llvm.global_dtors" [rec_X; rec_Y]] [].

(** [llvm.global_ctors = [(65535, @a.b, null), (65535, @a_b, null)]]. *)
Definition module_collide : Module :=
  module_of [metadata_array "llvm.global_ctors"
               [{| cs_priority := i32 65535; cs_function := "a.b" |};
                {| cs_priority := i32 65535; cs_function := "a_b" |}]] [].

Local Close Scope string_scope.

Lemma wf_i32 (v : Z) : wf_ConstantInt (i32 v).
Proof.
  unfold wf_ConstantInt, i32. simpl. split; [lia |].
  apply Z.mod_pos_bound. lia.
Qed.

(** ** Witnesses and counterexamples *)

Lemma ctor_kernel_calls_each_slot_in_order_witness :
  init_or_fini_calls true 3 4096 4120 = Some [4096; 4104; 4112].
Proof.
  apply (ctor_kernel_calls_each_slot_in_order 4096 3 3); lia.
Defined.

Local Open Scope string_scope.

Lemma malformed_array_is_noop_witness :
  createInitOrFiniKernel opts_id (module_of [metadata_array "llvm.global_ctors" []] [])
    "llvm.global_ctors" true
  = (false, module_of [metadata_array "llvm.global_ctors" []] []).
Proof.
  apply malformed_array_is_noop. right.
  exists (metadata_array "llvm.global_ctors" []). split; [reflexivity |].
  right; right. reflexivity.
Defined.

(** C1 (code bug): with a user-defined [nvptx$device$init], the pass
    reports the module unmodified, yet does not leave it as found: it has
    added the entry global [__init_array_object_A_id_65535] (and recorded it
    in [llvm.used]) before finding the existing kernel. *)
Lemma existing_kernel_adds_entry_global :
  fst (lowerCtorsAndDtors opts_id module_ctor_clash) = false /\
  snd (lowerCtorsAndDtors opts_id module_ctor_clash) <> module_ctor_clash /\
  map gv_name (m_globals (snd (lowerCtorsAndDtors opts_id module_ctor_clash)))
  = ["llvm.global_ctors"; "__init_array_object_A_id_65535"] /\
  m_used (snd (lowerCtorsAndDtors opts_id module_ctor_clash))
  = ["__init_array_object_A_id_65535"].
Proof.
  split; [vm_compute; reflexivity | split; [| split; vm_compute; reflexivity]].
  intros H. apply (f_equal (fun M => length (m_globals M))) in H.
  vm_compute in H. discriminate.
Qed.



Lemma second_run_is_noop_witness :
  lowerCtorsAndDtors opts_id (snd (lowerCtorsAndDtors opts_id module_both))
  = (false, snd (lowerCtorsAndDtors opts_id module_both)).
Proof.
  apply (second_run_is_noop opts_id module_both
           (snd (lowerCtorsAndDtors opts_id module_both)) true);
    vm_compute; reflexivity.
Defined.

Lemma entry_names_distinct_witness :
  gv_name (entry_global opts_id empty_module true {| cs_priority := i32 1; cs_function := "f" |})
  <> gv_name (entry_global opts_id empty_module true {| cs_priority := i32 2; cs_function := "f" |}).
Proof.
  apply (proj1 (entry_names_distinct opts_id empty_module true
                  {| cs_priority := i32 1; cs_function := "f" |}
                  {| cs_priority := i32 2; cs_function := "f" |} (wf_i32 1) (wf_i32 2)));
    [reflexivity | vm_compute; discriminate].
Defined.

Lemma boundary_symbols_only_on_kernel_path_witness :
  boundary_globals (snd (createInitOrFiniKernel opts_no_kernels module_ctor_A
                           "llvm.global_ctors" true))
  = boundary_globals module_ctor_A.
Proof.
  apply boundary_symbols_only_on_kernel_path. left. reflexivity.
Defined.

Lemma negative_priority_rendered_unsigned_witness :
  to_string (getSExtValue (i32 (-1)) + 2 ^ 64) = "18446744073709551615" /\
  gv_section (entry_global opts_id empty_module true
                {| cs_priority := i32 (-1); cs_function := "f" |})
  = ".init_array." ++ to_string (getSExtValue (i32 (-1)) + 2 ^ 64).
Proof.
  split; [vm_compute; reflexivity |].
  apply (negative_priority_rendered_unsigned opts_id empty_module true
           {| cs_priority := i32 (-1); cs_function := "f" |} (wf_i32 (-1)));
    vm_compute; reflexivity.
Defined.

Local Close Scope string_scope.

(** * Further properties of the pass *)

(** ** Symbols of a module *)

Definition gnames (M : Module) : list string := map gv_name (m_globals M).
Definition fnames (M : Module) : list string := map fn_name (m_functions M).

Definition has_global (M : Module) (Name : string) : bool :=
  existsb (fun g => String.eqb (gv_name g) Name) (m_globals M).

(** The metadata array of each kind, as [lowerCtorsAndDtors] names it. *)
Definition array_name (IsCtor : bool) : string :=
  if IsCtor then "llvm.global_ctors" else "llvm.global_dtors".

(** The function [createInitOrFiniKernelFunction] asks for. *)
Definition kernel_decl (M : Module) (IsCtor : bool) : Function :=
  {| fn_name := kernel_name IsCtor; fn_linkage := WeakODRLinkage; fn_callconv := C_CC;
     fn_attrs := m_default_fn_attrs M; fn_body := None |}.

(** Names made by the pass for globals start with two underscores. *)
Definition pass_global_name (N : string) : Prop := exists s, N = ("__" ++ s)%string.

Lemma existsb_name_In {A} (nm : A -> string) (l : list A) (Name : string) :
  existsb (fun x => String.eqb (nm x) Name) l = true <-> In Name (map nm l).
Proof.
  rewrite existsb_exists, in_map_iff. split.
  - intros (x & Hx & E). apply String.eqb_eq in E. eauto.
  - intros (x & E & Hx). exists x. split; [exact Hx | apply String.eqb_eq; exact E].
Qed.

Lemma find_none_existsb {A} (f : A -> bool) (l : list A) :
  find f l = None <-> existsb f l = false.
Proof.
  induction l as [| x l IH]; simpl; [split; reflexivity |].
  destruct (f x); simpl; [split; discriminate | exact IH].
Qed.

Lemma has_global_In (M : Module) (Name : string) :
  has_global M Name = true <-> In Name (gnames M).
Proof. apply existsb_name_In. Qed.

Lemma getFunction_None_In (M : Module) (Name : string) :
  getFunction M Name = None <-> ~ In Name (fnames M).
Proof.
  unfold getFunction, fnames. rewrite find_none_existsb, <- existsb_name_In.
  rewrite not_true_iff_false. reflexivity.
Qed.

Lemma name_in_use_false (M : Module) (Name : string) :
  name_in_use M Name = false <-> ~ In Name (gnames M) /\ ~ In Name (fnames M).
Proof.
  unfold name_in_use, gnames, fnames. rewrite orb_false_iff, <- !not_true_iff_false.
  rewrite !existsb_name_In. reflexivity.
Qed.

Lemma Forall2_In_r {A B} (R : A -> B -> Prop) (l1 : list A) (l2 : list B) (y : B) :
  Forall2 R l1 l2 -> In y l2 -> exists x, In x l1 /\ R x y.
Proof.
  induction 1 as [| x y' l1 l2 Hxy _ IH]; simpl; [tauto |].
  intros [<- | Hin]; [exists x; auto |].
  destruct (IH Hin) as (x' & Hx' & Hr). exists x'. auto.
Qed.

Lemma Forall2_In_l {A B} (R : A -> B -> Prop) (l1 : list A) (l2 : list B) (x : A) :
  Forall2 R l1 l2 -> In x l1 -> exists y, In y l2 /\ R x y.
Proof.
  induction 1 as [| x' y l1 l2 Hxy _ IH]; simpl; [tauto |].
  intros [<- | Hin]; [exists y; auto |].
  destruct (IH Hin) as (y' & Hy' & Hr). exists y'. auto.
Qed.

Lemma entry_name_pass_name (IsCtor : bool) (FName GlobalID : string) (P : Z)
  (sfx : string) :
  pass_global_name (entry_name IsCtor FName GlobalID P ++ sfx).
Proof. rewrite entry_name_split. destruct IsCtor; eexists; reflexivity. Qed.

Lemma boundary_name_pass_name (IsCtor : bool) (sfx : string) :
  pass_global_name (start_name IsCtor ++ sfx) /\ pass_global_name (end_name IsCtor ++ sfx).
Proof. destruct IsCtor; split; eexists; reflexivity. Qed.

Lemma kernel_name_not_pass_name (IsCtor : bool) : ~ pass_global_name (kernel_name IsCtor).
Proof. intros [s Hs]. destruct IsCtor; discriminate. Qed.

Lemma array_name_not_pass_name (IsCtor : bool) : ~ pass_global_name (array_name IsCtor).
Proof. intros [s Hs]. destruct IsCtor; discriminate. Qed.

(** ** Effect of each module operation on the symbols *)

Lemma gnames_addGlobal (M : Module) (g : GlobalVariable) (N : string) :
  In N (gnames (snd (addGlobal M g))) ->
  In N (gnames M) \/ exists sfx, N = (gv_name g ++ sfx)%string.
Proof.
  destruct (addGlobal_spec M g) as (Hr & Hg & _). unfold gnames. rewrite Hg, map_app, in_app_iff.
  intros [H | [H | []]]; [left; exact H | right].
  destruct (renamed_from_name _ _ Hr) as [sfx E]. exists sfx. congruence.
Qed.

Lemma fnames_addGlobal (M : Module) (g : GlobalVariable) :
  fnames (snd (addGlobal M g)) = fnames M.
Proof. unfold fnames. f_equal. apply addGlobal_spec. Qed.

Lemma addFunction_spec (M : Module) (f : Function) :
  (exists sfx, fst (addFunction M f) = set_fn_name f (fn_name f ++ sfx)) /\
  m_functions (snd (addFunction M f)) = m_functions M ++ [fst (addFunction M f)] /\
  m_globals (snd (addFunction M f)) = m_globals M /\
  m_used (snd (addFunction M f)) = m_used M.
Proof.
  unfold addFunction. destruct (uniqueName_prefix M (fn_name f)) as [sfx H].
  destruct (uniqueName M (fn_name f)) as [N L]. simpl in H. subst N.
  simpl. repeat split. exists sfx. reflexivity.
Qed.

Lemma addFunction_fresh (M : Module) (f : Function) :
  name_in_use M (fn_name f) = false ->
  fst (addFunction M f) = f /\ m_functions (snd (addFunction M f)) = m_functions M ++ [f].
Proof.
  intros H. unfold addFunction. rewrite uniqueName_fresh by exact H.
  destruct f. split; reflexivity.
Qed.

Lemma fnames_addFunction (M : Module) (f : Function) (N : string) :
  In N (fnames (snd (addFunction M f))) ->
  In N (fnames M) \/ exists sfx, N = (fn_name f ++ sfx)%string.
Proof.
  destruct (addFunction_spec M f) as ([sfx Hn] & Hf & _).
  unfold fnames. rewrite Hf, map_app, in_app_iff.
  intros [H | [H | []]]; [left; exact H | right]. exists sfx. rewrite <- H, Hn. reflexivity.
Qed.

Lemma gnames_getOrInsertGlobal (M : Module) (Name : string) (GV : GlobalVariable) (N : string) :
  In N (gnames (getOrInsertGlobal M Name GV)) ->
  In N (gnames M) \/ exists sfx, N = (gv_name GV ++ sfx)%string.
Proof.
  unfold getOrInsertGlobal. destruct (getNamedGlobal M Name); [left; exact H |].
  apply gnames_addGlobal.
Qed.

Lemma functions_getOrInsertGlobal (M : Module) (Name : string) (GV : GlobalVariable) :
  m_functions (getOrInsertGlobal M Name GV) = m_functions M.
Proof. unfold getOrInsertGlobal. destruct (getNamedGlobal M Name); [reflexivity |]. apply addGlobal_spec. Qed.

Lemma used_getOrInsertGlobal (M : Module) (Name : string) (GV : GlobalVariable) :
  m_used (getOrInsertGlobal M Name GV) = m_used M.
Proof. unfold getOrInsertGlobal. destruct (getNamedGlobal M Name); [reflexivity |]. apply addGlobal_spec. Qed.

Lemma In_getOrInsertGlobal (M : Module) (Name : string) (GV g : GlobalVariable) :
  In g (m_globals M) -> In g (m_globals (getOrInsertGlobal M Name GV)).
Proof.
  intros H. unfold getOrInsertGlobal. destruct (getNamedGlobal M Name); [exact H |].
  rewrite (proj1 (proj2 (addGlobal_spec M GV))). apply in_or_app. left. exact H.
Qed.

Lemma fnames_setBody (M : Module) (Name : string) (b : Body) :
  fnames (setBody M Name b) = fnames M.
Proof.
  unfold fnames, setBody. simpl. rewrite map_map. apply map_ext.
  intros f. destruct (String.eqb (fn_name f) Name); reflexivity.
Qed.

Lemma gnames_erase (M : Module) (Name N : string) :
  In N (gnames (eraseGlobal M Name)) -> In N (gnames M).
Proof.
  unfold gnames, eraseGlobal. simpl. rewrite !in_map_iff.
  intros (g & E & Hg). apply filter_In in Hg. exists g. split; [exact E | apply Hg].
Qed.

Lemma In_erase_other (M : Module) (Name : string) (g : GlobalVariable) :
  In g (m_globals M) -> gv_name g <> Name -> In g (m_globals (eraseGlobal M Name)).
Proof.
  intros Hin Hn. unfold eraseGlobal. simpl. apply filter_In. split; [exact Hin |].
  apply String.eqb_neq in Hn. rewrite Hn. reflexivity.
Qed.

Lemma has_global_erase_same (M : Module) (Name : string) :
  has_global (eraseGlobal M Name) Name = false.
Proof.
  unfold has_global, eraseGlobal. simpl.
  induction (m_globals M) as [| g l IH]; simpl; [reflexivity |].
  destruct (String.eqb (gv_name g) Name) eqn:E; simpl; [exact IH |].
  rewrite E. exact IH.
Qed.

Lemma has_global_erase_other (M : Module) (Name N : string) :
  N <> Name -> has_global (eraseGlobal M Name) N = has_global M N.
Proof.
  intros Hn. unfold has_global, eraseGlobal. simpl.
  induction (m_globals M) as [| g l IH]; simpl; [reflexivity |].
  destruct (String.eqb (gv_name g) Name) eqn:E; simpl.
  - apply String.eqb_eq in E. rewrite IH.
    replace (String.eqb (gv_name g) N) with false; [reflexivity |].
    symmetry. apply String.eqb_neq. congruence.
  - rewrite IH. reflexivity.
Qed.

(** [setBody] keeps every function's name and only touches [Name]. *)
Lemma getFunction_setBody (M : Module) (Name N : string) (b : Body) :
  getFunction (setBody M Name b) N =
  option_map (fun f => if String.eqb (fn_name f) Name
                       then {| fn_name := fn_name f; fn_linkage := fn_linkage f;
                               fn_callconv := fn_callconv f; fn_attrs := fn_attrs f;
                               fn_body := Some b |}
                       else f) (getFunction M N).
Proof.
  unfold getFunction, setBody. simpl.
  induction (m_functions M) as [| f l IH]; simpl; [reflexivity |].
  destruct (String.eqb (fn_name f) Name) eqn:EName; simpl;
    destruct (String.eqb (fn_name f) N) eqn:EN; simpl; rewrite ?EName; auto.
Qed.

Lemma getFunction_eraseGlobal (M : Module) (Name N : string) :
  getFunction (eraseGlobal M Name) N = getFunction M N.
Proof. reflexivity. Qed.

Lemma getFunction_appended (M M' : Module) (f : Function) :
  getFunction M (fn_name f) = None -> m_functions M' = m_functions M ++ [f] ->
  getFunction M' (fn_name f) = Some f.
Proof.
  unfold getFunction. intros H E. rewrite E. clear E. revert H.
  induction (m_functions M) as [| h l IH]; simpl; intros H.
  - rewrite String.eqb_refl. reflexivity.
  - destruct (String.eqb (fn_name h) (fn_name f)); [discriminate | auto].
Qed.

Lemma getNamedGlobal_getOrInsertGlobal (M : Module) (Name N : string) (GV g : GlobalVariable) :
  getNamedGlobal M N = Some g -> getNamedGlobal (getOrInsertGlobal M Name GV) N = Some g.
Proof.
  intros H. unfold getOrInsertGlobal. destruct (getNamedGlobal M Name); [exact H |].
  unfold getNamedGlobal in *. rewrite (proj1 (proj2 (addGlobal_spec M GV))).
  apply find_app_left. exact H.
Qed.

Lemma getNamedGlobal_erase_other (M : Module) (Name N : string) :
  N <> Name -> getNamedGlobal (eraseGlobal M Name) N = getNamedGlobal M N.
Proof.
  intros Hn. unfold getNamedGlobal, eraseGlobal. simpl.
  induction (m_globals M) as [| g l IH]; simpl; [reflexivity |].
  destruct (String.eqb (gv_name g) Name) eqn:E; simpl.
  - apply String.eqb_eq in E. rewrite IH.
    replace (String.eqb (gv_name g) N) with false; [reflexivity |].
    symmetry. apply String.eqb_neq. congruence.
  - rewrite IH. reflexivity.
Qed.

Lemma getGlobalVariable_getNamedGlobal (M : Module) (N : string) (GV : GlobalVariable) :
  getGlobalVariable M N = Some GV -> getNamedGlobal M N = Some GV.
Proof.
  unfold getGlobalVariable, getNamedGlobal.
  destruct (find _ (m_globals M)) as [g |]; [| discriminate].
  destruct (hasLocalLinkage (gv_linkage g)); congruence.
Qed.

Lemma getGlobalVariable_named (M M' : Module) (N : string) :
  getNamedGlobal M' N = getNamedGlobal M N -> getGlobalVariable M' N = getGlobalVariable M N.
Proof.
  unfold getGlobalVariable. fold (getNamedGlobal M' N). fold (getNamedGlobal M N).
  intros H. rewrite H. reflexivity.
Qed.

(** ** The module-level steps of a kind *)

Lemma gnames_fold (O : Options) (IsCtor : bool) (ops : list CtorStruct) (M : Module)
  (N : string) :
  In N (gnames (fold_left (create_entry O IsCtor) ops M)) ->
  In N (gnames M) \/ pass_global_name N.
Proof.
  destruct (fold_create_entry O IsCtor ops M) as (_ & _ & _ & gs & Hg & _ & HF).
  unfold gnames at 1. rewrite Hg, map_app, in_app_iff.
  intros [H | H]; [left; exact H | right].
  apply in_map_iff in H. destruct H as (g & <- & Hg').
  destruct (Forall2_In_r _ _ _ _ HF Hg') as (CS & _ & Hr).
  destruct (renamed_from_name _ _ Hr) as [sfx ->].
  rewrite entry_global_name. apply entry_name_pass_name.
Qed.

Lemma getNamedGlobal_fold (O : Options) (IsCtor : bool) (ops : list CtorStruct) (M : Module)
  (N : string) (g : GlobalVariable) :
  getNamedGlobal M N = Some g ->
  getNamedGlobal (fold_left (create_entry O IsCtor) ops M) N = Some g.
Proof.
  destruct (fold_create_entry O IsCtor ops M) as (_ & _ & _ & gs & Hg & _ & _).
  unfold getNamedGlobal. rewrite Hg. apply find_app_left.
Qed.

Lemma gnames_createInitOrFiniCalls (M : Module) (FName : string) (IsCtor : bool)
  (N : string) :
  In N (gnames (createInitOrFiniCalls M FName IsCtor)) -> In N (gnames M) \/ pass_global_name N.
Proof.
  unfold createInitOrFiniCalls. change (gnames (setBody ?X ?n ?b)) with (gnames X).
  intros H. apply gnames_getOrInsertGlobal in H. destruct H as [H | [sfx ->]].
  - apply gnames_getOrInsertGlobal in H. destruct H as [H | [sfx ->]]; [left; exact H |].
    right. apply boundary_name_pass_name.
  - right. apply boundary_name_pass_name.
Qed.

Lemma functions_createInitOrFiniCalls_names (M : Module) (FName : string) (IsCtor : bool) :
  fnames (createInitOrFiniCalls M FName IsCtor) = fnames M.
Proof.
  unfold createInitOrFiniCalls. rewrite fnames_setBody. unfold fnames.
  rewrite !functions_getOrInsertGlobal. reflexivity.
Qed.

Lemma getFunction_createInitOrFiniCalls (M : Module) (FName : string) (IsCtor : bool)
  (N : string) :
  getFunction (createInitOrFiniCalls M FName IsCtor) N =
  option_map (fun f => if String.eqb (fn_name f) FName
                       then {| fn_name := fn_name f; fn_linkage := fn_linkage f;
                               fn_callconv := fn_callconv f; fn_attrs := fn_attrs f;
                               fn_body := Some (InitOrFiniCalls IsCtor) |}
                       else f) (getFunction M N).
Proof.
  unfold createInitOrFiniCalls. rewrite getFunction_setBody.
  erewrite (getFunction_same _ M); [reflexivity |].
  rewrite !functions_getOrInsertGlobal. reflexivity.
Qed.

Lemma getNamedGlobal_createInitOrFiniCalls (M : Module) (FName : string) (IsCtor : bool)
  (N : string) (g : GlobalVariable) :
  getNamedGlobal M N = Some g -> getNamedGlobal (createInitOrFiniCalls M FName IsCtor) N = Some g.
Proof.
  intros H. unfold createInitOrFiniCalls.
  apply getNamedGlobal_getOrInsertGlobal, getNamedGlobal_getOrInsertGlobal. exact H.
Qed.

(** The kernel path of one kind, when the kernel's name is free in the
    whole symbol table: the kernel keeps its name, and the module before
    [createInitOrFiniCalls] has the entry globals and the new kernel. *)
Lemma kernel_path_fresh (O : Options) (M : Module) (GlobalName : string) (IsCtor : bool)
  (GV : GlobalVariable) (ops : list CtorStruct) :
  CreateKernels O = true ->
  getGlobalVariable M GlobalName = Some GV ->
  gv_initializer GV = Some (ConstantArray ops) -> ops <> [] ->
  name_in_use M (kernel_name IsCtor) = false ->
  exists M2,
    createInitOrFiniKernel O M GlobalName IsCtor =
      (true, eraseGlobal (createInitOrFiniCalls M2 (kernel_name IsCtor) IsCtor) GlobalName) /\
    m_functions M2 = m_functions M ++ [addKernelAttrs (kernel_decl M IsCtor)] /\
    (forall N, In N (gnames M2) -> In N (gnames M) \/ pass_global_name N) /\
    (forall N g, getNamedGlobal M N = Some g -> getNamedGlobal M2 N = Some g).
Proof.
  intros Hck Hgv Hinit Hne Hfree.
  destruct (fold_create_entry O IsCtor ops M) as (_ & Hf1 & Hd1 & _).
  set (M1 := fold_left (create_entry O IsCtor) ops M) in *.
  assert (Hfree1 : name_in_use M1 (kernel_name IsCtor) = false).
  { apply name_in_use_false in Hfree. destruct Hfree as [Hg Hf].
    apply name_in_use_false. split.
    - intros H. apply gnames_fold in H. destruct H as [H | H]; [contradiction |].
      exact (kernel_name_not_pass_name IsCtor H).
    - unfold fnames. rewrite Hf1. exact Hf. }
  assert (Hnone : getFunction M (kernel_name IsCtor) = None).
  { apply getFunction_None_In. apply name_in_use_false in Hfree. apply Hfree. }
  set (K := addKernelAttrs (kernel_decl M IsCtor)).
  assert (HK : addKernelAttrs (kernel_decl M1 IsCtor) = K).
  { unfold K, kernel_decl. rewrite Hd1. reflexivity. }
  destruct (addFunction_fresh M1 K Hfree1) as [HF HM2].
  exists (snd (addFunction M1 K)). split; [| split; [| split]].
  - unfold createInitOrFiniKernel. rewrite Hgv, Hinit.
    rewrite (createInitOrFiniGlobals_ok O M GV IsCtor ops Hinit Hne), Hck.
    change (fold_left (create_entry O IsCtor) ops M) with M1. simpl.
    unfold createInitOrFiniKernelFunction.
    replace (getFunction M1 (kernel_name IsCtor)) with (@None Function)
      by (symmetry; unfold M1; rewrite getFunction_fold; exact Hnone).
    change {| fn_name := kernel_name IsCtor; fn_linkage := WeakODRLinkage; fn_callconv := C_CC;
              fn_attrs := m_default_fn_attrs M1; fn_body := None |}
      with (kernel_decl M1 IsCtor).
    rewrite HK. destruct (addFunction M1 K) as [F' M2] eqn:EA.
    simpl in HF. subst F'. reflexivity.
  - rewrite HM2, Hf1. reflexivity.
  - intros N H. unfold gnames in H. rewrite (proj1 (proj2 (proj2 (addFunction_spec M1 K)))) in H.
    apply gnames_fold in H. exact H.
  - intros N g H. unfold getNamedGlobal. rewrite (proj1 (proj2 (proj2 (addFunction_spec M1 K)))).
    apply getNamedGlobal_fold. exact H.
Qed.

Lemma addFnAttr_In_new (attrs : list (string * string)) (Kind Val : string) :
  In (Kind, Val) (addFnAttr attrs Kind Val).
Proof.
  unfold addFnAttr. destruct (existsb _ attrs) eqn:E.
  - apply existsb_exists in E. destruct E as (a & Ha & Ek).
    apply in_map_iff. exists a. rewrite Ek. split; [reflexivity | exact Ha].
  - apply in_or_app. right. left. reflexivity.
Qed.

Lemma addFnAttr_In_old (attrs : list (string * string)) (Kind Val : string)
  (a : string * string) :
  In a attrs -> fst a <> Kind -> In a (addFnAttr attrs Kind Val).
Proof.
  intros Ha Hk. unfold addFnAttr. destruct (existsb _ attrs).
  - apply in_map_iff. exists a. apply String.eqb_neq in Hk. rewrite Hk. auto.
  - apply in_or_app. left. exact Ha.
Qed.

Lemma has_global_getOrInsertGlobal_same (M : Module) (Name : string) (GV : GlobalVariable) :
  gv_name GV = Name -> getFunction M Name = None ->
  has_global (getOrInsertGlobal M Name GV) Name = true.
Proof.
  intros HN Hf. unfold getOrInsertGlobal.
  destruct (getNamedGlobal M Name) eqn:E.
  - destruct (has_global M Name) eqn:H; [reflexivity |].
    unfold has_global, getNamedGlobal in *. apply find_none_existsb in H. congruence.
  - assert (Hfree : name_in_use M Name = false).
    { unfold name_in_use. unfold getNamedGlobal in E. unfold getFunction in Hf.
      apply find_none_existsb in E. apply find_none_existsb in Hf. rewrite E, Hf. reflexivity. }
    unfold addGlobal. rewrite HN, uniqueName_fresh by exact Hfree.
    unfold has_global. simpl. rewrite existsb_app. simpl.
    rewrite String.eqb_refl, orb_true_r. reflexivity.
Qed.

Lemma has_global_getOrInsertGlobal_other (M : Module) (Name N : string) (GV : GlobalVariable) :
  has_global M N = true -> has_global (getOrInsertGlobal M Name GV) N = true.
Proof.
  intros H. unfold getOrInsertGlobal. destruct (getNamedGlobal M Name); [exact H |].
  unfold has_global in *. rewrite (proj1 (proj2 (addGlobal_spec M GV))).
  rewrite existsb_app, H. reflexivity.
Qed.

(** ** Full lowering *)

(** On the kernel path of a kind (emission on, non-empty array, the
    kernel's name free in the symbol table, no function named like the
    boundary globals) the kind is reported modified and its metadata array
    is gone. The kernel exists under its reserved name with weak_odr
    linkage, the PTX kernel calling convention, the
    [nvvm.maxclusterrank = 1] and [nvvm.maxntid = 1] attributes, the
    module's other default attributes, and the loop body of its kind; both
    boundary globals of the kind exist. *)
Theorem kernel_path_lowers_kind (O : Options) (M : Module) (IsCtor : bool)
  (GV : GlobalVariable) (ops : list CtorStruct) :
  CreateKernels O = true ->
  getGlobalVariable M (array_name IsCtor) = Some GV ->
  gv_initializer GV = Some (ConstantArray ops) -> ops <> [] ->
  name_in_use M (kernel_name IsCtor) = false ->
  getFunction M (start_name IsCtor) = None ->
  getFunction M (end_name IsCtor) = None ->
  let '(modified, M') := createInitOrFiniKernel O M (array_name IsCtor) IsCtor in
  modified = true /\
  has_global M' (array_name IsCtor) = false /\
  (exists F, getFunction M' (kernel_name IsCtor) = Some F /\
     fn_linkage F = WeakODRLinkage /\ fn_callconv F = PTX_Kernel /\
     In ("nvvm.maxclusterrank", "1")%string (fn_attrs F) /\
     In ("nvvm.maxntid", "1")%string (fn_attrs F) /\
     (forall a, In a (m_default_fn_attrs M) -> fst a <> "nvvm.maxclusterrank"%string ->
        fst a <> "nvvm.maxntid"%string -> In a (fn_attrs F)) /\
     fn_body F = Some (InitOrFiniCalls IsCtor)) /\
  has_global M' (start_name IsCtor) = true /\
  has_global M' (end_name IsCtor) = true.
Proof.
  intros Hck Hgv Hinit Hne Hfree Hs He.
  destruct (kernel_path_fresh O M (array_name IsCtor) IsCtor GV ops Hck Hgv Hinit Hne Hfree)
    as (M2 & -> & Hf2 & _ & _).
  assert (Hnone : getFunction M (kernel_name IsCtor) = None).
  { apply getFunction_None_In. apply name_in_use_false in Hfree. apply Hfree. }
  assert (HK : getFunction M2 (kernel_name IsCtor) = Some (addKernelAttrs (kernel_decl M IsCtor))).
  { exact (getFunction_appended M M2 (addKernelAttrs (kernel_decl M IsCtor)) Hnone Hf2). }
  assert (Hother : forall N, N <> kernel_name IsCtor -> getFunction M N = None ->
                             getFunction M2 N = None).
  { intros N Hn HN. apply getFunction_None_In. apply getFunction_None_In in HN.
    unfold fnames. rewrite Hf2, map_app, in_app_iff. intros [H | [H | []]]; [contradiction |].
    apply Hn. rewrite <- H. reflexivity. }
  split; [reflexivity | split; [apply has_global_erase_same | split; [| split]]].
  - eexists. split.
    + rewrite getFunction_eraseGlobal, getFunction_createInitOrFiniCalls, HK. simpl. rewrite String.eqb_refl. reflexivity.
    + simpl. repeat split.
      * apply addFnAttr_In_old; [apply addFnAttr_In_new | discriminate].
      * apply addFnAttr_In_new.
      * intros a Ha H1 H2. apply addFnAttr_In_old; [| exact H2].
        apply addFnAttr_In_old; [exact Ha | exact H1].
  - rewrite has_global_erase_other by (destruct IsCtor; discriminate).
    unfold createInitOrFiniCalls. change (has_global (setBody ?X ?n ?b)) with (has_global X).
    apply has_global_getOrInsertGlobal_other, has_global_getOrInsertGlobal_same; [reflexivity |].
    apply Hother; [destruct IsCtor; discriminate | exact Hs].
  - rewrite has_global_erase_other by (destruct IsCtor; discriminate).
    unfold createInitOrFiniCalls. change (has_global (setBody ?X ?n ?b)) with (has_global X).
    apply has_global_getOrInsertGlobal_same; [reflexivity |].
    rewrite (getFunction_same M2) by apply functions_getOrInsertGlobal.
    apply Hother; [destruct IsCtor; discriminate | exact He].
Qed.

(** The functions of the module the kernel path of a kind leaves: those it
    had, with only the new kernel's body set, and the new kernel. *)
Lemma kernel_path_getFunction (M M2 : Module) (IsCtor : bool) (GlobalName N : string) :
  m_functions M2 = m_functions M ++ [addKernelAttrs (kernel_decl M IsCtor)] ->
  N <> kernel_name IsCtor ->
  getFunction (eraseGlobal (createInitOrFiniCalls M2 (kernel_name IsCtor) IsCtor) GlobalName) N
  = option_map (fun f => if String.eqb (fn_name f) (kernel_name IsCtor)
                         then {| fn_name := fn_name f; fn_linkage := fn_linkage f;
                                 fn_callconv := fn_callconv f; fn_attrs := fn_attrs f;
                                 fn_body := Some (InitOrFiniCalls IsCtor) |}
                         else f) (getFunction M N).
Proof.
  intros Hf2 Hn. rewrite getFunction_eraseGlobal, getFunction_createInitOrFiniCalls. f_equal.
  unfold getFunction. rewrite Hf2. clear Hf2.
  induction (m_functions M) as [| f l IH]; simpl.
  - rewrite String.eqb_sym. apply String.eqb_neq in Hn. rewrite Hn. reflexivity.
  - destruct (String.eqb (fn_name f) N); [reflexivity | exact IH].
Qed.

(** A module with valid non-empty constructor and destructor arrays and
    neither kernel name in use is fully lowered by [lowerCtorsAndDtors]:
    the constructor step leaves the destructor array and the freedom of
    the fini kernel's name intact, so both arrays are removed and both
    kernels exist afterwards as PTX kernels with their loop bodies, and the
    module is reported modified. *)
Theorem lower_both_kinds (O : Options) (M : Module) (GVc GVd : GlobalVariable)
  (opsc opsd : list CtorStruct) :
  CreateKernels O = true ->
  getGlobalVariable M (array_name true) = Some GVc ->
  gv_initializer GVc = Some (ConstantArray opsc) -> opsc <> [] ->
  getGlobalVariable M (array_name false) = Some GVd ->
  gv_initializer GVd = Some (ConstantArray opsd) -> opsd <> [] ->
  name_in_use M (kernel_name true) = false ->
  name_in_use M (kernel_name false) = false ->
  let '(modified, M') := lowerCtorsAndDtors O M in
  modified = true /\
  has_global M' (array_name true) = false /\
  has_global M' (array_name false) = false /\
  (exists F, getFunction M' (kernel_name true) = Some F /\
     fn_callconv F = PTX_Kernel /\ fn_body F = Some (InitOrFiniCalls true)) /\
  (exists F, getFunction M' (kernel_name false) = Some F /\
     fn_callconv F = PTX_Kernel /\ fn_body F = Some (InitOrFiniCalls false)).
Proof.
  intros Hck Hc Hic Hnc Hd Hid Hnd Hfi Hff.
  unfold lowerCtorsAndDtors. fold (array_name true). fold (array_name false).
  destruct (kernel_path_fresh O M (array_name true) true GVc opsc Hck Hc Hic Hnc Hfi)
    as (M2 & -> & Hf2 & Hg2 & Hn2).
  set (M1 := eraseGlobal (createInitOrFiniCalls M2 (kernel_name true) true) (array_name true)).
  assert (Hd1 : getGlobalVariable M1 (array_name false) = Some GVd).
  { rewrite <- Hd. apply getGlobalVariable_named. unfold M1.
    rewrite getNamedGlobal_erase_other by discriminate.
    apply getGlobalVariable_getNamedGlobal in Hd. rewrite Hd.
    apply getNamedGlobal_createInitOrFiniCalls, Hn2. exact Hd. }
  assert (Hff1 : name_in_use M1 (kernel_name false) = false).
  { apply name_in_use_false in Hff. destruct Hff as [Hg Hf].
    apply name_in_use_false. split.
    - intros H. apply gnames_erase, gnames_createInitOrFiniCalls in H.
      destruct H as [H | H]; [| exact (kernel_name_not_pass_name false H)].
      apply Hg2 in H. destruct H as [H | H]; [contradiction |].
      exact (kernel_name_not_pass_name false H).
    - unfold M1. change (fnames (eraseGlobal ?X ?n)) with (fnames X).
      rewrite functions_createInitOrFiniCalls_names. unfold fnames. rewrite Hf2, map_app.
      rewrite in_app_iff. intros [H | [H | []]]; [contradiction | discriminate]. }
  assert (Hnone : getFunction M (kernel_name true) = None).
  { apply getFunction_None_In. apply name_in_use_false in Hfi. apply Hfi. }
  assert (Hfi1 : getFunction M1 (kernel_name true) =
                 Some {| fn_name := kernel_name true; fn_linkage := WeakODRLinkage;
                         fn_callconv := PTX_Kernel;
                         fn_attrs := fn_attrs (addKernelAttrs (kernel_decl M true));
                         fn_body := Some (InitOrFiniCalls true) |}).
  { unfold M1. rewrite getFunction_eraseGlobal, getFunction_createInitOrFiniCalls.
    rewrite (getFunction_appended M M2 (addKernelAttrs (kernel_decl M true)) Hnone Hf2
             : getFunction M2 (kernel_name true) = _).
    reflexivity. }
  assert (Hc1 : has_global M1 (array_name true) = false) by apply has_global_erase_same.
  destruct (kernel_path_fresh O M1 (array_name false) false GVd opsd Hck Hd1 Hid Hnd Hff1)
    as (M3 & -> & Hf3 & Hg3 & _).
  split; [reflexivity | split; [| split; [| split]]].
  - destruct (has_global (eraseGlobal (createInitOrFiniCalls M3 (kernel_name false) false)
                            (array_name false)) (array_name true)) eqn:E; [| reflexivity].
    apply has_global_In, gnames_erase, gnames_createInitOrFiniCalls in E.
    destruct E as [E | E]; [| destruct (array_name_not_pass_name true E)].
    apply Hg3 in E. destruct E as [E | E]; [| destruct (array_name_not_pass_name true E)].
    apply has_global_In in E. congruence.
  - apply has_global_erase_same.
  - rewrite (kernel_path_getFunction M1 M3 false) by (exact Hf3 || discriminate).
    rewrite Hfi1. eexists. simpl. split; [reflexivity | split; reflexivity].
  - eexists. split.
    + rewrite getFunction_eraseGlobal, getFunction_createInitOrFiniCalls.
      assert (Hnone1 : getFunction M1 (kernel_name false) = None).
      { apply getFunction_None_In. apply name_in_use_false in Hff1. apply Hff1. }
      rewrite (getFunction_appended M1 M3 (addKernelAttrs (kernel_decl M1 false)) Hnone1 Hf3
               : getFunction M3 (kernel_name false) = _).
      simpl. reflexivity.
    + split; reflexivity.
Qed.

(** ** Entry globals survive the rest of the kind *)

(** Once the entry globals are materialised, the module a kind ends with
    is either that module or the kernel-path one built on it. *)
Lemma kind_result_cases (O : Options) (M : Module) (GlobalName : string) (IsCtor : bool)
  (GV : GlobalVariable) (ops : list CtorStruct) :
  getGlobalVariable M GlobalName = Some GV ->
  gv_initializer GV = Some (ConstantArray ops) -> ops <> [] ->
  snd (createInitOrFiniKernel O M GlobalName IsCtor) = fold_left (create_entry O IsCtor) ops M \/
  exists f FName,
    snd (createInitOrFiniKernel O M GlobalName IsCtor) =
    eraseGlobal (createInitOrFiniCalls
                   (snd (addFunction (fold_left (create_entry O IsCtor) ops M) f)) FName IsCtor)
                GlobalName.
Proof.
  intros Hgv Hinit Hne. unfold createInitOrFiniKernel. rewrite Hgv, Hinit.
  rewrite (createInitOrFiniGlobals_ok O M GV IsCtor ops Hinit Hne).
  remember (fold_left (create_entry O IsCtor) ops M) as M1 eqn:EM1.
  destruct (CreateKernels O); [| left; reflexivity].
  simpl. unfold createInitOrFiniKernelFunction.
  destruct (getFunction M1 (kernel_name IsCtor)); [left; reflexivity |].
  right. destruct (addFunction M1 _) as [F' M2] eqn:EA.
  exists (addKernelAttrs {| fn_name := kernel_name IsCtor; fn_linkage := WeakODRLinkage;
                            fn_callconv := C_CC; fn_attrs := m_default_fn_attrs M1;
                            fn_body := None |}), (fn_name F').
  rewrite EA. reflexivity.
Qed.

(** Every record of a kind's array gets an entry global that survives
    whatever follows ([CreateKernels] off, an existing kernel, or the
    kernel path that erases the array): a global named as the namer asked,
    up to a suffix added by the symbol table, holding the record's
    function, in the resulting module and with its name in [llvm.used]. *)
Theorem entries_survive_kind (O : Options) (M : Module) (IsCtor : bool)
  (GV : GlobalVariable) (ops : list CtorStruct) (CS : CtorStruct) :
  getGlobalVariable M (array_name IsCtor) = Some GV ->
  gv_initializer GV = Some (ConstantArray ops) -> In CS ops ->
  let M' := snd (createInitOrFiniKernel O M (array_name IsCtor) IsCtor) in
  exists g, renamed_from (entry_global O M IsCtor CS) g /\
    In g (m_globals M') /\ In (gv_name g) (m_used M') /\
    gv_initializer g = Some (FunctionRef (cs_function CS)).
Proof.
  intros Hgv Hinit Hin M'.
  assert (Hne : ops <> []) by (intros E; subst ops; contradiction).
  destruct (fold_create_entry O IsCtor ops M) as (_ & _ & _ & gs & Hg & Hu & HF).
  destruct (Forall2_In_l _ _ _ _ HF Hin) as (g & Hgs & Hr).
  exists g. split; [exact Hr |].
  assert (Hg1 : In g (m_globals (fold_left (create_entry O IsCtor) ops M))).
  { rewrite Hg. apply in_or_app. right. exact Hgs. }
  assert (Hu1 : In (gv_name g) (m_used (fold_left (create_entry O IsCtor) ops M))).
  { rewrite Hu. apply in_or_app. right. apply in_map. exact Hgs. }
  split; [| split; [| rewrite (renamed_from_initializer _ _ Hr); reflexivity]].
  - destruct (kind_result_cases O M (array_name IsCtor) IsCtor GV ops Hgv Hinit Hne)
      as [HM | (f & FName & HM)]; unfold M'; rewrite HM; [exact Hg1 |].
    apply In_erase_other.
    + unfold createInitOrFiniCalls. change (m_globals (setBody ?X ?n ?b)) with (m_globals X).
      apply In_getOrInsertGlobal, In_getOrInsertGlobal.
      rewrite (proj1 (proj2 (proj2 (addFunction_spec _ f)))). exact Hg1.
    + destruct (renamed_from_name _ _ Hr) as [sfx ->]. rewrite entry_global_name.
      intros E. apply (array_name_not_pass_name IsCtor). rewrite <- E.
      apply entry_name_pass_name.
  - destruct (kind_result_cases O M (array_name IsCtor) IsCtor GV ops Hgv Hinit Hne)
      as [HM | (f & FName & HM)]; unfold M'; rewrite HM; [exact Hu1 |].
    unfold createInitOrFiniCalls. simpl.
    rewrite !used_getOrInsertGlobal, (proj2 (proj2 (proj2 (addFunction_spec _ f)))).
    exact Hu1.
Qed.


(** ** Edge cases of the synthesised loops *)

(** With an empty destructor range ([start = end], [start >= 8]) the
    destructor kernel's entry test [start - 8 >u start] is false and
    nothing is called. *)
Theorem dtor_kernel_empty_range (start : Z) (fuel : nat) :
  8 <= start < 2 ^ 64 -> init_or_fini_calls false fuel start start = Some [].
Proof.
  intros Hs. unfold init_or_fini_calls.
  rewrite Z.sub_diag, wrap64_small by lia.
  replace (ashr64 0 3) with 0 by reflexivity.
  rewrite (gep_in_range start 0) by lia. rewrite gep_in_range by lia.
  replace (start <? start + 8 * 0 + 8 * -1) with false
    by (symmetry; apply Z.ltb_ge; lia).
  reflexivity.
Qed.



(** ** Reporting *)

(** When the kernel of a kind already exists, [createInitOrFiniKernel]
    reports the kind unmodified although it has added the entry globals,
    so the module it returns differs from the input. *)
Theorem existing_kernel_reports_unmodified (O : Options) (M : Module) (GlobalName : string)
  (IsCtor : bool) (GV : GlobalVariable) (ops : list CtorStruct) (F : Function) :
  getGlobalVariable M GlobalName = Some GV ->
  gv_initializer GV = Some (ConstantArray ops) -> ops <> [] ->
  CreateKernels O = true ->
  getFunction M (kernel_name IsCtor) = Some F ->
  fst (createInitOrFiniKernel O M GlobalName IsCtor) = false /\
  snd (createInitOrFiniKernel O M GlobalName IsCtor) <> M.
Proof.
  intros Hgv Hinit Hne Hck Hf.
  destruct (fold_create_entry O IsCtor ops M) as (_ & Hf1 & _ & gs & Hg & _ & HF).
  unfold createInitOrFiniKernel. rewrite Hgv, Hinit.
  rewrite (createInitOrFiniGlobals_ok O M GV IsCtor ops Hinit Hne), Hck.
  remember (fold_left (create_entry O IsCtor) ops M) as M1 eqn:EM1. simpl.
  unfold createInitOrFiniKernelFunction.
  rewrite (getFunction_same M M1), Hf by exact Hf1.
  split; [reflexivity |]. simpl. intros H.
  apply (f_equal (fun M => length (m_globals M))) in H. rewrite Hg, length_app in H.
  apply Forall2_length in HF. destruct ops; [congruence | simpl in HF; lia].
Qed.

(** ** Entry-global names and sections *)

Fixpoint has_dot (s : string) : bool :=
  match s with
  | EmptyString => false
  | String c s' => Ascii.eqb c "."%char || has_dot s'
  end.

Lemma replace_dots_no_dot (s : string) : has_dot (replace_dots s) = false.
Proof.
  induction s as [| c s IH]; simpl; [reflexivity |].
  rewrite IH, orb_false_r.
  destruct (Ascii.eqb c "."%char) eqn:E; [reflexivity | exact E].
Qed.

(** No entry-global name contains ['.'], whatever the function name, the
    identifier or the priority. *)
Theorem entry_global_name_has_no_dot (O : Options) (M : Module) (IsCtor : bool)
  (CS : CtorStruct) :
  has_dot (gv_name (entry_global O M IsCtor CS)) = false.
Proof. rewrite entry_global_name. apply replace_dots_no_dot. Qed.

(** A constructor entry global and a destructor entry global never share a
    name: the prefixes [__init_array_object_] and [__fini_array_object_]
    survive the ['.'] replacement. *)
Theorem ctor_dtor_entry_names_differ (O : Options) (M : Module) (CS1 CS2 : CtorStruct) :
  gv_name (entry_global O M true CS1) <> gv_name (entry_global O M false CS2).
Proof. rewrite !entry_global_name, !entry_name_split. simpl. discriminate. Qed.

(** The priority printed at the end of an entry global's name (after the
    last ['_']) and in its [.init_array.] / [.fini_array.] section is the
    same digit string, the decimal form of the priority as a 64-bit unsigned
    number. *)
Theorem entry_name_and_section_share_priority (O : Options) (M : Module) (IsCtor : bool)
  (CS : CtorStruct) :
  let D := to_string (to_uint64 (getSExtValue (cs_priority CS))) in
  all_digits D = true /\
  (exists Pre, gv_name (entry_global O M IsCtor CS) = (Pre ++ "_" ++ D)%string) /\
  gv_section (entry_global O M IsCtor CS) =
    ((if IsCtor then ".init_array." else ".fini_array.") ++ D)%string.
Proof.
  intros D. split; [apply all_digits_to_string | split].
  - rewrite entry_global_name, entry_name_split.
    eexists. rewrite !string_append_assoc. reflexivity.
  - unfold entry_global. simpl. destruct IsCtor; reflexivity.
Qed.


(** ** Colliding entry names *)

Local Open Scope string_scope.

(** When two records of a kind get the same entry name (the functions
    [a.b] and [a_b] at priority 65535, see C7), the second global is
    renamed by the symbol table, which appends [LastUnique]: the module
    keeps both, as [__init_array_object_a_b_id_65535] and
    [__init_array_object_a_b_id_655351], and both are in [llvm.used]. *)
Theorem colliding_entries_renamed :
  let M' := snd (lowerCtorsAndDtors opts_no_kernels module_collide) in
  map gv_name (m_globals M') =
    ["llvm.global_ctors"; "__init_array_object_a_b_id_65535";
     "__init_array_object_a_b_id_655351"] /\
  m_used M' = ["__init_array_object_a_b_id_65535"; "__init_array_object_a_b_id_655351"] /\
  map gv_initializer (tl (m_globals M')) = [Some (FunctionRef "a.b"); Some (FunctionRef "a_b")].
Proof. vm_compute. repeat split. Qed.

Local Close Scope string_scope.

(** ** Witnesses of the further properties *)

Local Open Scope string_scope.

Lemma kernel_path_lowers_kind_witness :
  let '(modified, M') := createInitOrFiniKernel opts_id module_ctor_A (array_name true) true in
  modified = true /\
  has_global M' (array_name true) = false /\
  (exists F, getFunction M' (kernel_name true) = Some F /\
     fn_linkage F = WeakODRLinkage /\ fn_callconv F = PTX_Kernel /\
     In ("nvvm.maxclusterrank", "1") (fn_attrs F) /\
     In ("nvvm.maxntid", "1") (fn_attrs F) /\
     (forall a, In a (m_default_fn_attrs module_ctor_A) -> fst a <> "nvvm.maxclusterrank" ->
        fst a <> "nvvm.maxntid" -> In a (fn_attrs F)) /\
     fn_body F = Some (InitOrFiniCalls true)) /\
  has_global M' (start_name true) = true /\
  has_global M' (end_name true) = true.
Proof.
  apply (kernel_path_lowers_kind opts_id module_ctor_A true
           (metadata_array "llvm.global_ctors" [rec_A]) [rec_A]);
    first [reflexivity | discriminate].
Defined.

Lemma lower_both_kinds_witness :
  let '(modified, M') := lowerCtorsAndDtors opts_id module_both in
  modified = true /\
  has_global M' (array_name true) = false /\
  has_global M' (array_name false) = false /\
  (exists F, getFunction M' (kernel_name true) = Some F /\
     fn_callconv F = PTX_Kernel /\ fn_body F = Some (InitOrFiniCalls true)) /\
  (exists F, getFunction M' (kernel_name false) = Some F /\
     fn_callconv F = PTX_Kernel /\ fn_body F = Some (InitOrFiniCalls false)).
Proof.
  apply (lower_both_kinds opts_id module_both
           (metadata_array "llvm.global_ctors" [rec_A])
           (metadata_array "llvm.global_dtors" [rec_X; rec_Y]) [rec_A] [rec_X; rec_Y]);
    first [reflexivity | discriminate].
Defined.

Lemma entries_survive_kind_witness :
  let M' := snd (createInitOrFiniKernel opts_id module_ctor_clash (array_name true) true) in
  exists g, renamed_from (entry_global opts_id module_ctor_clash true rec_A) g /\
    In g (m_globals M') /\ In (gv_name g) (m_used M') /\
    gv_initializer g = Some (FunctionRef (cs_function rec_A)).
Proof.
  apply (entries_survive_kind opts_id module_ctor_clash true
           (metadata_array "llvm.global_ctors" [rec_A]) [rec_A] rec_A);
    [reflexivity | reflexivity | left; reflexivity].
Defined.

Lemma dtor_kernel_reverse_from_two_witness :
  init_or_fini_calls false 2 4096 4112 = Some [4104; 4096].
Proof. apply (dtor_kernel_reverse_from_two 4096 2 2); lia. Defined.

Lemma dtor_kernel_empty_range_witness :
  init_or_fini_calls false 5 4096 4096 = Some [].
Proof. apply (dtor_kernel_empty_range 4096 5). lia. Defined.

Lemma existing_kernel_reports_unmodified_witness :
  fst (createInitOrFiniKernel opts_id module_ctor_clash "llvm.global_ctors" true) = false /\
  snd (createInitOrFiniKernel opts_id module_ctor_clash "llvm.global_ctors" true)
  <> module_ctor_clash.
Proof.
  apply (existing_kernel_reports_unmodified opts_id module_ctor_clash "llvm.global_ctors" true
           (metadata_array "llvm.global_ctors" [rec_A]) [rec_A] (user_kernel true));
    [reflexivity | reflexivity | discriminate | reflexivity | reflexivity].
Defined.

Local Close Scope string_scope.
